(** * Team calendar aggregation (gog calendar team)

    A shallow embedding of [internal/cmd]'s [CalendarTeamCmd]: the
    extraction of the user members of a group, the per-member fan-out
    of [runEvents] with its semaphore and its mutex-guarded buffers,
    the normalisation of the raw calendar events ([formatEventTime],
    [parseEventStart], declined / private / query filters), the sort
    and [dedupeTeamEvents].

    Go strings are byte strings and are modelled by [string]; a Go
    [map] is a [gmap]; a slice is a [list]; a pointer that the code
    tests against [nil] is an [option]. *)

From Stdlib Require Import ZArith Ascii String List Sorting.Sorted.
From stdpp Require Import base option list strings gmap sorting.

Local Open Scope string_scope.
Local Open Scope list_scope.

(** ** Results of the external calls

    An upstream [error] is represented by its [Error()] message. *)

Inductive result (A : Type) : Type :=
| Ok (a : A)
| Err (msg : string).
Arguments Ok {A} a.
Arguments Err {A} msg.

(** ** Package [strings] *)

Module strings.

(** [strings.Contains(s, substr)]: [substr] occurs in [s] as a
    contiguous run of bytes; the empty string occurs everywhere. *)
Fixpoint Contains (s substr : string) : bool :=
  String.prefix substr s ||
  match s with
  | EmptyString => false
  | String _ s' => Contains s' substr
  end.

Definition isUpperASCII (c : ascii) : bool :=
  (Nat.leb 65 (nat_of_ascii c)) && (Nat.leb (nat_of_ascii c) 90).

Definition lowerByte (c : ascii) : ascii :=
  if isUpperASCII c then ascii_of_nat (nat_of_ascii c + 32) else c.

Fixpoint isASCII (s : string) : bool :=
  match s with
  | EmptyString => true
  | String c s' => Nat.ltb (nat_of_ascii c) 128 && isASCII s'
  end.

Fixpoint mapBytes (f : ascii -> ascii) (s : string) : string :=
  match s with
  | EmptyString => EmptyString
  | String c s' => String (f c) (mapBytes f s')
  end.

(** [strings.ToLower]: a string of ASCII bytes is lowered byte by
    byte; any other string goes through the Unicode tables
    ([strings.Map(unicode.ToLower, s)]), which are taken as the
    parameter [unicodeLower]. *)
Definition ToLower (unicodeLower : string -> string) (s : string) : string :=
  if isASCII s then mapBytes lowerByte s else unicodeLower s.

(** [strings.Join(elems, sep)]. *)
Definition Join (elems : list string) (sep : string) : string :=
  String.concat sep elems.

End strings.

(** ** Package [time]

    A [time.Time] is used by this command only as an instant (it is
    compared with [Before]) and as the argument of
    [t.In(loc).Format("15:04")]; it is modelled by the number of
    nanoseconds since the zero time, January 1 of year 1, 00:00 UTC. *)

Module time.

Definition Time : Type := Z.

(** [time.Time{}] *)
Definition zero : Time := 0%Z.

(** [t.Before(u)] *)
Definition Before (t u : Time) : bool := (t <? u)%Z.

Definition isLeap (year : Z) : bool :=
  ((year mod 4 =? 0) && (negb (year mod 100 =? 0) || (year mod 400 =? 0)))%Z.

Definition daysIn (month year : Z) : Z :=
  (if month =? 2 then (if isLeap year then 29 else 28)
   else if (month =? 4) || (month =? 6) || (month =? 9) || (month =? 11)
        then 30 else 31)%Z.

(** Days from January 1 of year 1 to January 1 of [year]. *)
Definition daysBeforeYear (year : Z) : Z :=
  (let y := year - 1 in 365 * y + y / 4 - y / 100 + y / 400)%Z.

Fixpoint daysBeforeMonth_aux (n : nat) (month year : Z) : Z :=
  match n with
  | O => 0%Z
  | S n' =>
      (if Z.of_nat n <? month
       then daysIn (Z.of_nat n) year + daysBeforeMonth_aux n' month year
       else daysBeforeMonth_aux n' month year)%Z
  end.

(** Days from January 1 of [year] to the first of [month]. *)
Definition daysBeforeMonth (month year : Z) : Z :=
  daysBeforeMonth_aux 12 month year.

Definition nsPerSecond : Z := 1000000000%Z.
Definition nsPerDay : Z := (86400 * nsPerSecond)%Z.

(** [time.Date(year, month, day, hour, min, sec, nsec, time.UTC)] on
    fields that are in range. *)
Definition Date (year month day hour min sec nsec : Z) : Time :=
  (((daysBeforeYear year + daysBeforeMonth month year + (day - 1)) * 86400
    + hour * 3600 + min * 60 + sec) * nsPerSecond + nsec)%Z.

(** Midnight UTC at the start of a civil date. *)
Definition midnight (year month day : Z) : Time :=
  Date year month day 0 0 0 0.

Definition digit (c : ascii) : option Z :=
  let n := nat_of_ascii c in
  if Nat.leb 48 n && Nat.leb n 57 then Some (Z.of_nat (n - 48)) else None.

(** The civil date written by the layout ["2006-01-02"]: four digits,
    a dash, two digits, a dash, two digits and nothing else; the
    month is in 1..12 and the day exists in that month. *)
Definition parseCivil (value : string) : option (Z * Z * Z) :=
  match value with
  | String y1 (String y2 (String y3 (String y4 (String "-"
    (String m1 (String m2 (String "-"
    (String d1 (String d2 EmptyString))))))))) =>
      match digit y1, digit y2, digit y3, digit y4,
            digit m1, digit m2, digit d1, digit d2 with
      | Some a, Some b, Some c, Some d, Some e, Some f, Some g, Some h =>
          let year := (1000 * a + 100 * b + 10 * c + d)%Z in
          let month := (10 * e + f)%Z in
          let day := (10 * g + h)%Z in
          if ((1 <=? month) && (month <=? 12) &&
              (1 <=? day) && (day <=? daysIn month year))%Z
          then Some (year, month, day)
          else None
      | _, _, _, _, _, _, _, _ => None
      end
  | _ => None
  end.

(** [time.Parse("2006-01-02", value)]: the fields that the layout
    does not mention are zero and the zone is UTC. *)
Definition ParseDate (value : string) : option Time :=
  match parseCivil value with
  | Some (y, m, d) => Some (midnight y m d)
  | None => None
  end.

End time.

(** ** The API types that the command reads *)

Module calendar.

Record EventDateTime : Type := {
  Date : string;
  DateTime : string;
}.

(** [Attendees] is a slice of pointers that the code dereferences
    without a test: its entries are never [nil]. *)
Record EventAttendee : Type := {
  Self : bool;
  ResponseStatus : string;
}.

Record Event : Type := {
  Id : string;
  Summary : string;
  Visibility : string;
  Status : string;
  Start : option EventDateTime;
  End : option EventDateTime;
  Attendees : list EventAttendee;
}.

Record TimePeriod : Type := {
  PeriodStart : string;
  PeriodEnd : string;
}.

Record FreeBusyCalendar : Type := {
  Busy : list TimePeriod;
  Errors : list string;     (* the [Reason] of each error *)
}.

End calendar.

Module cloudidentity.

Record EntityKey : Type := { KeyId : string }.

Record Membership : Type := {
  PreferredMemberKey : option EntityKey;
  Type_ : string;
}.

End cloudidentity.

(** [teamEvent] represents a calendar event with owner information. *)
Record teamEvent : Type := {
  Who : string;
  ID : string;
  Start : string;
  End : string;
  Summary : string;
  Status : string;
  sortKey : time.Time;
}.

(** [result[idx].Who += ", " + who] *)
Definition appendWho (r : teamEvent) (who : string) : teamEvent :=
  {| Who := Who r +:+ (", " +:+ who); ID := ID r; Start := Start r;
     End := End r; Summary := Summary r; Status := Status r;
     sortKey := sortKey r |}.

(** ** [dedupeTeamEvents]

    The loop state is the map [seen] (event ID -> index in result) and
    the slice [result].  Indexing [result] out of range is a run-time
    panic, modelled by [None]. *)

Definition dedupe_step (st : gmap string nat * list teamEvent) (ev : teamEvent)
  : option (gmap string nat * list teamEvent) :=
  let '(seen, result) := st in
  match seen !! ID ev with
  | Some idx =>
      match result !! idx with
      | Some r => Some (seen, <[idx := appendWho r (Who ev)]> result)
      | None => None
      end
  | None => Some (<[ID ev := length result]> seen, result ++ [ev])
  end.

Fixpoint dedupe_loop (events : list teamEvent)
    (st : gmap string nat * list teamEvent)
  : option (gmap string nat * list teamEvent) :=
  match events with
  | [] => Some st
  | ev :: rest =>
      match dedupe_step st ev with
      | Some st' => dedupe_loop rest st'
      | None => None
      end
  end.

Definition dedupeTeamEvents (events : list teamEvent) : option (list teamEvent) :=
  snd <$> dedupe_loop events (∅, []).

Definition nonEmpty (s : string) : bool := negb (String.eqb s "").

(** The command line of [gog calendar team]; the time-range flags are
    consumed by [ResolveTimeRange] only. *)
Record CalendarTeamCmd : Type := {
  GroupEmail : string;
  FreeBusy : bool;
  Query : string;
  Max : Z;
  NoDedup : bool;
}.

(** ** Normalisation of one raw event *)

Section Aggregator.

Set Default Proof Using "Type".

(** [time.Parse(time.RFC3339, s)], [None] when it returns an error. *)
Variable ParseRFC3339 : string -> option time.Time.
(** [t.In(tr.Location).Format("15:04")] *)
Variable clock : time.Time -> string.
(** The Unicode branch of [strings.ToLower]. *)
Variable unicodeLower : string -> string.

Definition clockOf (s : string) : string :=
  match ParseRFC3339 s with
  | Some t => clock t
  | None => ""
  end.

Definition formatEventTime (ev : calendar.Event) : string * string :=
  match calendar.Start ev with
  | None => ("", "")
  | Some st =>
      if nonEmpty (calendar.Date st) then
        (* All-day event *)
        (calendar.Date st,
         match calendar.End ev with
         | Some en => if nonEmpty (calendar.Date en) then calendar.Date en else ""
         | None => ""
         end)
      else
        (* Timed event *)
        (if nonEmpty (calendar.DateTime st) then clockOf (calendar.DateTime st) else "",
         match calendar.End ev with
         | Some en =>
             if nonEmpty (calendar.DateTime en) then clockOf (calendar.DateTime en) else ""
         | None => ""
         end)
  end.

Definition parseEventStart (ev : calendar.Event) : time.Time :=
  match calendar.Start ev with
  | None => time.zero
  | Some st =>
      match (if nonEmpty (calendar.DateTime st)
             then ParseRFC3339 (calendar.DateTime st) else None) with
      | Some t => t
      | None =>
          match (if nonEmpty (calendar.Date st)
                 then time.ParseDate (calendar.Date st) else None) with
          | Some t => t
          | None => time.zero
          end
      end
  end.

(** The loop over [ev.Attendees] that sets [declined]. *)
Definition declined (ev : calendar.Event) : bool :=
  existsb (fun att => calendar.Self att
                      && String.eqb (calendar.ResponseStatus att) "declined")
          (calendar.Attendees ev).

(** [summary] after the "Hide private events" test. *)
Definition maskedSummary (ev : calendar.Event) : string :=
  if String.eqb (calendar.Visibility ev) "private"
     || String.eqb (calendar.Visibility ev) "confidential"
  then "(busy)" else calendar.Summary ev.

(** The condition under which the query filter skips an event. *)
Definition filteredOut (queryLower summary : string) : bool :=
  nonEmpty queryLower
  && negb (strings.Contains (strings.ToLower unicodeLower summary) queryLower).

(** The body of [for _, ev := range resp.Items] in a worker of
    [runEvents]: the event that the worker appends for [item], if any. *)
Definition processItem (queryLower email : string) (item : option calendar.Event)
  : option teamEvent :=
  match item with
  | None => None
  | Some ev =>
      if declined ev then None
      else
        let summary := maskedSummary ev in
        if filteredOut queryLower summary then None
        else
          let '(start, end_) := formatEventTime ev in
          Some {| Who := email; ID := calendar.Id ev; Start := start;
                  End := end_; Summary := summary;
                  Status := calendar.Status ev;
                  sortKey := parseEventStart ev |}
  end.

(** What one member contributes when its fetch returned [items]. *)
Definition contribution (queryLower email : string)
    (items : list (option calendar.Event)) : list teamEvent :=
  omap (processItem queryLower email) items.


(** ** The fan-out of [runEvents]

    One goroutine per member.  A worker first sends on the buffered
    channel [sem] (capacity 10), then issues its events-list call, then
    appends to the shared slices under the mutex, one event at a time,
    and receives from [sem] when it returns.  Each transition below is
    one atomic action of one worker. *)

Inductive pc : Type :=
| Waiting                                          (* before [sem <- struct{}{}] *)
| Fetching                                         (* [call.Do()] in flight *)
| Emitting (items : list (option calendar.Event))  (* in the loop over [resp.Items] *)
| Returning                                        (* the deferred [<-sem] is next *)
| Done.                                            (* after [wg.Done()] *)

(** A worker, with the answer that its call gets from the server. *)
Record worker : Type := {
  email : string;
  response : result (list (option calendar.Event));
  at_ : pc;
}.

Record state : Type := {
  workers : list worker;
  events : list teamEvent;      (* guarded by [mu] *)
  errors : list string;         (* guarded by [mu] *)
  sem : nat;                    (* number of tokens in the channel *)
}.

(** [make(chan struct{}, 10)] *)
Definition semCap : nat := 10.

Definition goto (w : worker) (p : pc) : worker :=
  {| email := email w; response := response w; at_ := p |}.

Definition holdsSlot (w : worker) : bool :=
  match at_ w with
  | Fetching | Emitting _ | Returning => true
  | Waiting | Done => false
  end.

Definition inFlight (w : worker) : bool :=
  match at_ w with
  | Fetching => true
  | _ => false
  end.

Definition countWorkers (f : worker -> bool) (ws : list worker) : nat :=
  sum_list_with (fun w => if f w then 1 else 0) ws.

(** [fmt.Sprintf("%s: %v", email, err)] *)
Definition warningOf (member msg : string) : string :=
  member +:+ ": " +:+ msg.

Definition spawn (fetch : string * result (list (option calendar.Event))) : worker :=
  {| email := fetch.1; response := fetch.2; at_ := Waiting |}.

Definition init (fetches : list (string * result (list (option calendar.Event))))
  : state :=
  {| workers := spawn <$> fetches; events := []; errors := []; sem := 0 |}.

Definition finished (s : state) : Prop :=
  Forall (fun w => at_ w = Done) (workers s).

(** The closure given to [sort.Slice]. *)
Definition less (a b : teamEvent) : bool :=
  time.Before (sortKey a) (sortKey b).

(** What [sort.Slice] establishes: no element is less than an earlier one. *)
Definition sortedByStart (l : list teamEvent) : Prop :=
  StronglySorted (fun a b => less b a = false) l.

(** The warnings printed and the events rendered by [runEvents]. *)
Record report : Type := {
  warnings : list string;
  shown : list teamEvent;
}.

(** [sort.Slice(events, less)] *)
Variable sortSlice : list teamEvent -> list teamEvent.

(** What the library guarantees of [sort.Slice]. *)
Hypothesis sortSlice_perm : forall l, sortSlice l ≡ₚ l.
Hypothesis sortSlice_sorted : forall l, sortedByStart (sortSlice l).

Inductive step (queryLower : string) : state -> state -> Prop :=
| step_acquire ws1 w ws2 evs errs n :
    at_ w = Waiting ->
    n < semCap ->
    step queryLower
      {| workers := ws1 ++ w :: ws2; events := evs; errors := errs; sem := n |}
      {| workers := ws1 ++ goto w Fetching :: ws2; events := evs;
         errors := errs; sem := S n |}
| step_fetch_err ws1 w ws2 evs errs n msg :
    at_ w = Fetching ->
    response w = Err msg ->
    step queryLower
      {| workers := ws1 ++ w :: ws2; events := evs; errors := errs; sem := n |}
      {| workers := ws1 ++ goto w Returning :: ws2; events := evs;
         errors := errs ++ [warningOf (email w) msg]; sem := n |}
| step_fetch_ok ws1 w ws2 evs errs n items :
    at_ w = Fetching ->
    response w = Ok items ->
    step queryLower
      {| workers := ws1 ++ w :: ws2; events := evs; errors := errs; sem := n |}
      {| workers := ws1 ++ goto w (Emitting items) :: ws2; events := evs;
         errors := errs; sem := n |}
| step_emit ws1 w ws2 evs errs n item rest :
    at_ w = Emitting (item :: rest) ->
    step queryLower
      {| workers := ws1 ++ w :: ws2; events := evs; errors := errs; sem := n |}
      {| workers := ws1 ++ goto w (Emitting rest) :: ws2;
         events := evs ++ option_list (processItem queryLower (email w) item);
         errors := errs; sem := n |}
| step_loop_end ws1 w ws2 evs errs n :
    at_ w = Emitting [] ->
    step queryLower
      {| workers := ws1 ++ w :: ws2; events := evs; errors := errs; sem := n |}
      {| workers := ws1 ++ goto w Returning :: ws2; events := evs;
         errors := errs; sem := n |}
| step_release ws1 w ws2 evs errs n :
    at_ w = Returning ->
    step queryLower
      {| workers := ws1 ++ w :: ws2; events := evs; errors := errs; sem := S n |}
      {| workers := ws1 ++ goto w Done :: ws2; events := evs;
         errors := errs; sem := n |}.

(** The states that the fan-out can be in. *)
Definition reachable (queryLower : string)
    (fetches : list (string * result (list (option calendar.Event))))
    (s : state) : Prop :=
  rtc (step queryLower) (init fetches) s.

(** After [wg.Wait()]: sort, then deduplicate unless [--no-dedup]. *)
Definition finalEvents (c : CalendarTeamCmd) (evs : list teamEvent)
  : option (list teamEvent) :=
  let sorted := sortSlice evs in
  if NoDedup c then Some sorted else dedupeTeamEvents sorted.

(** [runEvents] returns [nil] with the report [r]. *)
Definition runEvents (c : CalendarTeamCmd)
    (fetches : list (string * result (list (option calendar.Event))))
    (r : report) : Prop :=
  exists s,
    reachable (strings.ToLower unicodeLower (Query c)) fetches s
    /\ finished s
    /\ warnings r = errors s
    /\ finalEvents c (events s) = Some (shown r).

(** ** [runFreeBusy] and [Run]

    The calls to other packages are parameters: each gives the result
    that the call returns. *)

Inductive error : Type :=
| Upstream (msg : string)                      (* returned unchanged *)
| Usage (msg : string)                         (* [usage(msg)] *)
| CalendarServiceError (cause : string)        (* "calendar service: %w" *)
| CloudIdentityNotEnabled (cause : string)
| CloudIdentityPermissions (cause : string)
| FindGroupError (groupEmail cause : string)   (* "failed to find group %q: %w" *)
| ListMembersError (cause : string)            (* "failed to list group members: %w" *)
| FreeBusyQueryError (cause : string).         (* "freebusy query: %w" *)

Record busyResult : Type := {
  Email : string;
  BusyBlocks : list string;
  ErrorReasons : list string;
}.

(** How [Run] ends: with an error, or with [nil] after a message on the
    error stream, a free/busy report or an events report. *)
Inductive outcome : Type :=
| Failed (e : error)
| Diagnostic (msg : string)
| FreeBusyReport (results : list busyResult)
| EventsReport (r : report).

Definition newline : string := String (ascii_of_nat 10) EmptyString.

(** [wrapCloudIdentityError] of [groups.go]. *)
Definition wrapCloudIdentityError (errStr : string) : error :=
  if strings.Contains errStr "accessNotConfigured"
     || strings.Contains errStr "Cloud Identity API has not been used"
  then CloudIdentityNotEnabled errStr
  else if strings.Contains errStr "insufficientPermissions"
          || strings.Contains errStr "insufficient authentication scopes"
  then CloudIdentityPermissions errStr
  else Upstream errStr.

(** "Extract member emails (skip non-users)". *)
Fixpoint memberEmails (memberships : list (option cloudidentity.Membership))
  : list string :=
  match memberships with
  | [] => []
  | None :: rest => memberEmails rest
  | Some m :: rest =>
      match cloudidentity.PreferredMemberKey m with
      | None => memberEmails rest
      | Some key =>
          let email := cloudidentity.KeyId key in
          if String.eqb (cloudidentity.Type_ m) "USER" && strings.Contains email "@"
          then email :: memberEmails rest
          else memberEmails rest
      end
  end.

(** [requireAccount(flags)] *)
Variable requireAccount : result string.
(** [strings.TrimSpace] *)
Variable TrimSpace : string -> string.
(** [newCalendarService(ctx, account)] *)
Variable newCalendarService : string -> result unit.
(** [ResolveTimeRange(ctx, calSvc, c.TimeRangeFlags)] *)
Variable ResolveTimeRange : result unit.
(** [newCloudIdentityService(ctx, account)] *)
Variable newCloudIdentityService : string -> result unit.
(** [svc.Groups.Lookup().GroupKeyId(email).Context(ctx).Do()], the [Name]
    of the response. *)
Variable groupsLookupDo : string -> result string.
(** [cloudSvc.Groups.Memberships.List(groupName).PageSize(200).Context(ctx).Do()],
    the [Memberships] of the response. *)
Variable membershipsListDo : string -> result (list (option cloudidentity.Membership)).
(** [svc.Freebusy.Query(...).Context(ctx).Do()], the [Calendars] of the
    response. *)
Variable freebusyQueryDo : list string -> result (gmap string calendar.FreeBusyCalendar).
(** [call.Do()] of the k-th worker of [runEvents], the [Items] of the
    response. *)
Variable eventsListDo : nat -> string -> result (list (option calendar.Event)).

(** [lookupGroupByEmail] of [groups.go]. *)
Definition lookupGroupByEmail (groupEmail : string) : result string :=
  match groupsLookupDo groupEmail with
  | Err e => Err e
  | Ok name => Ok name
  end.

(** [start, _ := time.Parse(time.RFC3339, s)]: the zero time on error. *)
Definition parseOrZero (s : string) : time.Time :=
  default time.zero (ParseRFC3339 s).

Definition busyBlock (busy : calendar.TimePeriod) : string :=
  clock (parseOrZero (calendar.PeriodStart busy)) +:+ "-"
  +:+ clock (parseOrZero (calendar.PeriodEnd busy)).

Definition busyResultOf (calendars : gmap string calendar.FreeBusyCalendar)
    (member : string) : option busyResult :=
  match calendars !! member with
  | None => None
  | Some cal =>
      Some {| Email := member;
              BusyBlocks := busyBlock <$> calendar.Busy cal;
              ErrorReasons := calendar.Errors cal |}
  end.

Definition runFreeBusy (emails : list string) : outcome :=
  match freebusyQueryDo emails with
  | Err e => Failed (FreeBusyQueryError e)
  | Ok calendars => FreeBusyReport (omap (busyResultOf calendars) emails)
  end.

(** The result that each worker of [runEvents] will get. *)
Definition fetchesOf (emails : list string)
  : list (string * result (list (option calendar.Event))) :=
  imap (fun k member => (member, eventsListDo k member)) emails.

(** [Run c out]: the command [c] ends with [out]. *)
Definition Run (c : CalendarTeamCmd) (out : outcome) : Prop :=
  match requireAccount with
  | Err e => out = Failed (Upstream e)
  | Ok account =>
  let groupEmail := TrimSpace (GroupEmail c) in
  if String.eqb groupEmail "" then out = Failed (Usage "group email required")
  else
  match newCalendarService account with
  | Err e => out = Failed (CalendarServiceError e)
  | Ok _ =>
  match ResolveTimeRange with
  | Err e => out = Failed (Upstream e)
  | Ok _ =>
  match newCloudIdentityService account with
  | Err e => out = Failed (wrapCloudIdentityError e)
  | Ok _ =>
  match lookupGroupByEmail groupEmail with
  | Err e => out = Failed (FindGroupError groupEmail e)
  | Ok groupName =>
  match membershipsListDo groupName with
  | Err e => out = Failed (ListMembersError e)
  | Ok memberships =>
      if Nat.eqb (length memberships) 0
      then out = Diagnostic ("No members in group " +:+ groupEmail +:+ newline)
      else
        let emails := memberEmails memberships in
        if Nat.eqb (length emails) 0
        then out = Diagnostic ("No user members in group " +:+ groupEmail +:+ newline)
        else if FreeBusy c then out = runFreeBusy emails
        else exists r, out = EventsReport r /\ runEvents c (fetchesOf emails) r
  end end end end end
  end.


(** ** Deduplication as the specification words it

    "Walk the sorted list once, keyed by id; first occurrence of an id
    is kept as the canonical entry, subsequent occurrences append their
    who to the canonical entry's who field (comma-joined) and are
    dropped from the output sequence."  [mergeById] is this walk without
    the index map; [dedupeTeamEvents_mergeById] below shows that the
    code computes it. *)

Fixpoint mergeInto (result : list teamEvent) (ev : teamEvent) : list teamEvent :=
  match result with
  | [] => [ev]
  | r :: result' =>
      if decide (ID r = ID ev) then appendWho r (Who ev) :: result'
      else r :: mergeInto result' ev
  end.

Definition mergeById (events : list teamEvent) : list teamEvent :=
  foldl mergeInto [] events.

(** The identifiers of a list in the order in which they first occur. *)
Fixpoint firstSeen (ids : list string) : list string :=
  match ids with
  | [] => []
  | i :: ids' => i :: filter (fun j => j <> i) (firstSeen ids')
  end.

(** An entry with another [Who]. *)
Definition withWho (who : string) (e : teamEvent) : teamEvent :=
  {| Who := who; ID := ID e; Start := Start e; End := End e;
     Summary := Summary e; Status := Status e; sortKey := sortKey e |}.

(** The events of [l] that carry the identifier [i], in the order of [l]. *)
Definition occurrences (i : string) (l : list teamEvent) : list teamEvent :=
  filter (fun x => ID x = i) l.

(** The index map of [dedupeTeamEvents] describes [result]. *)
Definition seen_ok (seen : gmap string nat) (result : list teamEvent) : Prop :=
  NoDup (ID <$> result)
  /\ forall i idx, seen !! i = Some idx <-> (ID <$> result) !! idx = Some i.

(** [e] is the first event of [l] with its identifier, with the [Who]
    of all the events of [l] with that identifier, comma-joined in the
    order of [l]. *)
Definition canonical (l : list teamEvent) (e : teamEvent) : Prop :=
  exists f rest,
    occurrences (ID e) l = f :: rest
    /\ e = withWho (strings.Join (Who <$> f :: rest) ", ") f.

(** ** Bookkeeping of the fan-out *)

(** What a worker appends to [events] over its whole run, and what it
    has still to append. *)
Definition total (queryLower : string) (w : worker) : list teamEvent :=
  match response w with
  | Ok items => contribution queryLower (email w) items
  | Err _ => []
  end.

Definition pending (queryLower : string) (w : worker) : list teamEvent :=
  match at_ w with
  | Waiting | Fetching => total queryLower w
  | Emitting rest => contribution queryLower (email w) rest
  | Returning | Done => []
  end.

(** The same for [errors]. *)
Definition totalWarnings (w : worker) : list string :=
  match response w with
  | Ok _ => []
  | Err msg => [warningOf (email w) msg]
  end.

Definition pendingWarnings (w : worker) : list string :=
  match at_ w with
  | Waiting | Fetching => totalWarnings w
  | Emitting _ | Returning | Done => []
  end.

Definition fetchOf (w : worker) : string * result (list (option calendar.Event)) :=
  (email w, response w).

(** The number of actions that a worker has still to take. *)
Definition weight (w : worker) : nat :=
  let n := match response w with Ok items => length items | Err _ => 0 end in
  match at_ w with
  | Waiting => 4 + n
  | Fetching => 3 + n
  | Emitting rest => 2 + length rest
  | Returning => 1
  | Done => 0
  end.

Definition measure (s : state) : nat := sum_list_with weight (workers s).

(** The events and the warning that a fetch gives rise to. *)
Definition fetchEvents (queryLower : string)
    (f : string * result (list (option calendar.Event))) : list teamEvent :=
  match f.2 with
  | Ok items => contribution queryLower f.1 items
  | Err _ => []
  end.

Definition fetchWarnings (f : string * result (list (option calendar.Event)))
  : list string :=
  match f.2 with
  | Ok _ => []
  | Err msg => [warningOf f.1 msg]
  end.

(** ** A concrete setting for the examples

    The sort that [sort.Slice] runs on a slice of at most 12 elements is
    an insertion sort that moves an element to the left while it is
    less than its neighbour; the timestamps are those of whole seconds
    in UTC, ["2006-01-02T15:04:05Z"], and the clock is the UTC one. *)

Fixpoint insertByStart (x : teamEvent) (l : list teamEvent) : list teamEvent :=
  match l with
  | [] => [x]
  | y :: l' => if less y x then y :: insertByStart x l' else x :: y :: l'
  end.

Definition insertionSort (l : list teamEvent) : list teamEvent :=
  foldr insertByStart [] l.

Definition twoDigits (a b : ascii) : option Z :=
  match time.digit a, time.digit b with
  | Some x, Some y => Some (10 * x + y)%Z
  | _, _ => None
  end.

Definition parseUTC (value : string) : option time.Time :=
  match value with
  | String y1 (String y2 (String y3 (String y4 (String d1
    (String m1 (String m2 (String d2
    (String a1 (String a2 (String "T"
    (String h1 (String h2 (String ":"
    (String n1 (String n2 (String ":"
    (String s1 (String s2 (String "Z" EmptyString))))))))))))))))))) =>
      let date :=
        String y1 (String y2 (String y3 (String y4 (String d1
        (String m1 (String m2 (String d2
        (String a1 (String a2 EmptyString))))))))) in
      match time.parseCivil date, twoDigits h1 h2, twoDigits n1 n2,
            twoDigits s1 s2 with
      | Some (y, m, d), Some hh, Some mm, Some ss =>
          if ((hh <? 24) && (mm <? 60) && (ss <? 60))%Z
          then Some (time.Date y m d hh mm ss 0)
          else None
      | _, _, _, _ => None
      end
  | _ => None
  end.

Definition digitChar (n : Z) : ascii := ascii_of_nat (48 + Z.to_nat n).

Definition clockUTC (t : time.Time) : string :=
  let secs := (t / time.nsPerSecond)%Z in
  let hh := ((secs / 3600) mod 24)%Z in
  let mm := ((secs / 60) mod 60)%Z in
  String (digitChar (hh / 10)) (String (digitChar (hh mod 10)) (String ":"
  (String (digitChar (mm / 10)) (String (digitChar (mm mod 10)) EmptyString)))).

Definition noUnicode (s : string) : string := s.

Definition timed (id summary visibility start end_ : string)
    (attendees : list calendar.EventAttendee) : calendar.Event :=
  {| calendar.Id := id; calendar.Summary := summary;
     calendar.Visibility := visibility; calendar.Status := "confirmed";
     calendar.Start := Some {| calendar.Date := ""; calendar.DateTime := start |};
     calendar.End := Some {| calendar.Date := ""; calendar.DateTime := end_ |};
     calendar.Attendees := attendees |}.

Definition alice : string := "alice@example.com".
Definition bob : string := "bob@example.com".

Definition standup : calendar.Event :=
  timed "ev1" "Daily Standup" "" "2026-01-05T09:00:00Z" "2026-01-05T09:30:00Z" [].

Definition oneOnOne : calendar.Event :=
  timed "ev2" "Bob's 1:1" "" "2026-01-05T14:00:00Z" "2026-01-05T15:00:00Z" [].

Definition busyLunch : calendar.Event :=
  timed "ev3" "Busy lunch" "private" "2026-01-05T12:00:00Z" "2026-01-05T13:00:00Z" [].

Definition skipped : calendar.Event :=
  timed "ev4" "Planning" "" "2026-01-05T16:00:00Z" "2026-01-05T17:00:00Z"
    [ {| calendar.Self := false; calendar.ResponseStatus := "accepted" |};
      {| calendar.Self := true; calendar.ResponseStatus := "declined" |} ].

Definition offsite : calendar.Event :=
  {| calendar.Id := "ev5"; calendar.Summary := "Offsite";
     calendar.Visibility := ""; calendar.Status := "confirmed";
     calendar.Start := Some {| calendar.Date := "2026-01-05"; calendar.DateTime := "" |};
     calendar.End := Some {| calendar.Date := "2026-01-06"; calendar.DateTime := "" |};
     calendar.Attendees := [] |}.

Definition undated : calendar.Event :=
  {| calendar.Id := "ev6"; calendar.Summary := "Someday";
     calendar.Visibility := ""; calendar.Status := "tentative";
     calendar.Start := None; calendar.End := None; calendar.Attendees := [] |}.

Definition teamCmd : CalendarTeamCmd :=
  {| GroupEmail := "engineering@example.com"; FreeBusy := false;
     Query := ""; Max := 100; NoDedup := false |}.

(** The answers of the two calendars of the concrete scenario. *)
Definition scenario : list (string * result (list (option calendar.Event))) :=
  [ (alice, Ok [Some standup]); (bob, Ok [Some standup; Some oneOnOne]) ].

Definition entry (who id start end_ summary : string) (key : time.Time) : teamEvent :=
  {| Who := who; ID := id; Start := start; End := end_; Summary := summary;
     Status := "confirmed"; sortKey := key |}.

Definition nine : time.Time := time.Date 2026 1 5 9 0 0 0.
Definition two : time.Time := time.Date 2026 1 5 14 0 0 0.

(** The buffer of the scenario when bob's worker appends first. *)
Definition scenarioBuffer : list teamEvent :=
  [ entry bob "ev1" "09:00" "09:30" "Daily Standup" nine;
    entry bob "ev2" "14:00" "15:00" "Bob's 1:1" two;
    entry alice "ev1" "09:00" "09:30" "Daily Standup" nine ].

Definition userMember (id : string) : option cloudidentity.Membership :=
  Some {| cloudidentity.PreferredMemberKey := Some {| cloudidentity.KeyId := id |};
          cloudidentity.Type_ := "USER" |}.

Definition nestedGroup : option cloudidentity.Membership :=
  Some {| cloudidentity.PreferredMemberKey :=
            Some {| cloudidentity.KeyId := "leads@example.com" |};
          cloudidentity.Type_ := "GROUP" |}.

Definition fifty : list (string * result (list (option calendar.Event))) :=
  replicate 50 (alice, Ok [Some standup]).

(** The state of the fan-out over [fifty] in which ten workers have
    sent on [sem] and their calls are in flight. *)
Definition tenFetching : state :=
  {| workers := ((fun f => goto (spawn f) Fetching)
                   <$> replicate 10 (alice, Ok [Some standup]))
                ++ (spawn <$> replicate 40 (alice, Ok [Some standup]));
     events := []; errors := []; sem := 10 |}.

(** Collaborators of [Run] for the examples. *)
Definition theAccount : result string := Ok "a@b.com".
Definition asGiven (s : string) : string := s.
Definition serviceOk (account : string) : result unit := Ok ().
Definition rangeOk : result unit := Ok ().
Definition lookupOk (groupEmail : string) : result string := Ok "groups/abc123".
Definition onlyAGroup (name : string)
  : result (list (option cloudidentity.Membership)) :=
  Ok [nestedGroup; None].
Definition freebusyFails (emails : list string)
  : result (gmap string calendar.FreeBusyCalendar) :=
  Err "googleapi: Error 503: Backend Error".
Definition noEvents (k : nat) (member : string)
  : result (list (option calendar.Event)) :=
  Ok [].

Definition garbled : calendar.Event :=
  timed "ev7" "Retro" "" "tomorrow" "later" [].

Definition someMembers : list (option cloudidentity.Membership) :=
  [userMember alice; None; nestedGroup; userMember "nobody"; userMember bob].

(** ** The output of [runEvents] and [runFreeBusy], and helpers of [groups.go] *)

(** The first [n] bytes of [s] (all of [s] when it is shorter). *)
Fixpoint firstBytes (n : nat) (s : string) : string :=
  match n, s with
  | S n', String c s' => String c (firstBytes n' s')
  | _, _ => EmptyString
  end.

(** [s[:hi]]: a run-time panic, [None], when [hi] is negative or beyond
    [len(s)]. *)
Definition sliceTo (s : string) (hi : Z) : option string :=
  if ((hi <? 0) || (Z.of_nat (String.length s) <? hi))%Z then None
  else Some (firstBytes (Z.to_nat hi) s).

(** [truncate] of [groups.go]: shortens a string to [maxLen], adding
    "..." if truncated. *)
Definition truncate (s : string) (maxLen : Z) : option string :=
  if (Z.of_nat (String.length s) <=? maxLen)%Z then Some s
  else if (maxLen <=? 3)%Z then sliceTo s maxLen
  else
    match sliceTo s (maxLen - 3) with
    | Some head => Some (head +:+ "...")
    | None => None
    end.

(** [cloudidentity.MembershipRole].  The slice given to [getMemberRole]
    holds pointers, and the function reads [r.Name] without a test: a
    nil entry that a loop reaches is a run-time panic, [None]. *)
Record MembershipRole : Type := { Name : string }.

(** [for _, r := range roles { if r.Name == name { return ... } }]:
    whether the loop returns. *)
Fixpoint hasRoleNamed (name : string) (roles : list (option MembershipRole))
  : option bool :=
  match roles with
  | [] => Some false
  | None :: _ => None
  | Some r :: rest =>
      if String.eqb (Name r) name then Some true else hasRoleNamed name rest
  end.

(** [getMemberRole] of [groups.go]. *)
Definition getMemberRole (roles : list (option MembershipRole)) : option string :=
  if Nat.eqb (length roles) 0 then Some "MEMBER"
  else
    match hasRoleNamed "OWNER" roles with
    | None => None
    | Some true => Some "OWNER"
    | Some false =>
        match hasRoleNamed "MANAGER" roles with
        | None => None
        | Some true => Some "MANAGER"
        | Some false => Some "MEMBER"
        end
    end.

(** [sanitizeTab], of a file that is not at hand. *)
Variable sanitizeTab : string -> string.

(** What [runEvents] writes after the sort and the deduplication:
    the JSON object, the message "No events found" on the error
    stream, or the rows of the table under WHO, START, END, SUMMARY. *)
Inductive eventsOutput : Type :=
| EventsJSON (shownEvents : list teamEvent)
| NoEventsFound
| EventsTable (rows : list (string * string * string * string)).

Definition eventRow (ev : teamEvent) : option (string * string * string * string) :=
  match truncate (Summary ev) 40 with
  | Some summary =>
      Some (sanitizeTab (Who ev), sanitizeTab (Start ev), sanitizeTab (End ev),
            sanitizeTab summary)
  | None => None
  end.

(** [isJSON] is [outfmt.IsJSON(ctx)]. *)
Definition renderEvents (isJSON : bool) (evs : list teamEvent) : option eventsOutput :=
  if isJSON then Some (EventsJSON evs)
  else if Nat.eqb (length evs) 0 then Some NoEventsFound
  else EventsTable <$> mapM eventRow evs.

(** The cell under BUSY BLOCKS in the table of [runFreeBusy]. *)
Definition busyText (r : busyResult) : string :=
  let busyStr := strings.Join (BusyBlocks r) ", " in
  let busyStr := if String.eqb busyStr "" then "(free)" else busyStr in
  if Nat.ltb 0 (length (ErrorReasons r))
  then "error: " +:+ strings.Join (ErrorReasons r) ", "
  else busyStr.

(** A raw event with another title. *)
Definition withSummary (title : string) (ev : calendar.Event) : calendar.Event :=
  {| calendar.Id := calendar.Id ev; calendar.Summary := title;
     calendar.Visibility := calendar.Visibility ev;
     calendar.Status := calendar.Status ev; calendar.Start := calendar.Start ev;
     calendar.End := calendar.End ev; calendar.Attendees := calendar.Attendees ev |}.

(** Whether the call of a worker returned an error, and the raw events
    that it returned. *)
Definition failed (f : string * result (list (option calendar.Event))) : bool :=
  match f.2 with
  | Err _ => true
  | Ok _ => false
  end.

Definition fetchItems (f : string * result (list (option calendar.Event)))
  : list (option calendar.Event) :=
  match f.2 with
  | Ok items => items
  | Err _ => []
  end.

(** ** Answers of the server up to the titles of private events

    [redact] blanks the title of an event that is private or
    confidential; two answers with the same redaction differ in such
    titles only. *)

Definition isPrivate (ev : calendar.Event) : bool :=
  String.eqb (calendar.Visibility ev) "private"
  || String.eqb (calendar.Visibility ev) "confidential".

Definition redact (ev : calendar.Event) : calendar.Event :=
  if isPrivate ev then withSummary "" ev else ev.

Definition redactItem (item : option calendar.Event) : option calendar.Event :=
  redact <$> item.

Definition redactItems (items : list (option calendar.Event))
  : list (option calendar.Event) :=
  redactItem <$> items.

Definition redactResponse (r : result (list (option calendar.Event)))
  : result (list (option calendar.Event)) :=
  match r with
  | Ok items => Ok (redactItems items)
  | Err msg => Err msg
  end.

Definition redactFetch (f : string * result (list (option calendar.Event)))
  : string * result (list (option calendar.Event)) :=
  (f.1, redactResponse f.2).

Definition redactPc (p : pc) : pc :=
  match p with
  | Emitting items => Emitting (redactItems items)
  | Waiting => Waiting
  | Fetching => Fetching
  | Returning => Returning
  | Done => Done
  end.

Definition redactWorker (w : worker) : worker :=
  {| email := email w; response := redactResponse (response w);
     at_ := redactPc (at_ w) |}.

(** ** More of the concrete setting *)

(** A [sanitizeTab] for the examples: a tab becomes a space. *)
Definition tabsToSpaces (s : string) : string :=
  strings.mapBytes
    (fun ch => if Ascii.eqb ch (ascii_of_nat 9) then ascii_of_nat 32 else ch) s.

Definition listsSomeMembers (name : string)
  : result (list (option cloudidentity.Membership)) :=
  Ok someMembers.

(** The answers of the calendars of [scenario], by member. *)
Definition scenarioEvents (k : nat) (member : string)
  : result (list (option calendar.Event)) :=
  if String.eqb member alice then Ok [Some standup]
  else Ok [Some standup; Some oneOnOne].

Definition morning : calendar.TimePeriod :=
  {| calendar.PeriodStart := "2026-01-05T09:00:00Z";
     calendar.PeriodEnd := "2026-01-05T09:30:00Z" |}.

(** A free/busy answer that lists alice, busy in the morning, and no
    one else. *)
Definition aliceIsBusy : gmap string calendar.FreeBusyCalendar :=
  {[ alice := {| calendar.Busy := [morning]; calendar.Errors := [] |} ]}.

Definition freebusyOk (emails : list string)
  : result (gmap string calendar.FreeBusyCalendar) :=
  Ok aliceIsBusy.

Definition standupQuery : CalendarTeamCmd :=
  {| GroupEmail := "engineering@example.com"; FreeBusy := false;
     Query := "STANDUP"; Max := 100; NoDedup := false |}.

Definition scenarioReport : report :=
  {| warnings := [];
     shown := [ entry "bob@example.com, alice@example.com" "ev1" "09:00" "09:30"
                  "Daily Standup" nine;
                entry bob "ev2" "14:00" "15:00" "Bob's 1:1" two ] |}.

Definition reportWithoutAlice : report :=
  {| warnings := ["alice@example.com: googleapi: Error 403: Forbidden"];
     shown := [ entry bob "ev1" "09:00" "09:30" "Daily Standup" nine;
                entry bob "ev2" "14:00" "15:00" "Bob's 1:1" two ] |}.

(** * Properties *)

(** ** [dedupeTeamEvents] computes [mergeById] and never panics *)

Lemma mergeInto_fresh result ev :
  ID ev ∉ ID <$> result -> mergeInto result ev = result ++ [ev].
Proof.
  induction result as [|r result IH]; simpl; [done|].
  intros Hnot. apply not_elem_of_cons in Hnot as [Hne Hnot].
  destruct (decide (ID r = ID ev)); [congruence|].
  by rewrite IH.
Qed.

Lemma mergeInto_hit result ev idx r :
  NoDup (ID <$> result) ->
  result !! idx = Some r ->
  ID r = ID ev ->
  mergeInto result ev = <[idx := appendWho r (Who ev)]> result.
Proof.
  revert idx. induction result as [|r0 result IH]; intros idx Hnd Hl Hid; [done|].
  simpl in Hnd. apply NoDup_cons in Hnd as [Hnot Hnd].
  destruct idx as [|idx]; simpl in *.
  - injection Hl as ->. by rewrite decide_True.
  - destruct (decide (ID r0 = ID ev)) as [Heq|Hne].
    + exfalso. apply Hnot. rewrite Heq, <- Hid.
      apply list_elem_of_fmap_2. by eapply list_elem_of_lookup_2.
    + f_equal. by apply IH.
Qed.

Lemma mergeInto_ids result ev :
  ID <$> mergeInto result ev =
  if decide (ID ev ∈ ID <$> result) then ID <$> result
  else (ID <$> result) ++ [ID ev].
Proof.
  induction result as [|r result IH]; [done|].
  cbn [mergeInto]. rewrite fmap_cons.
  destruct (decide (ID r = ID ev)) as [Heq|Hne].
  - rewrite decide_True; [done|]. rewrite Heq. apply list_elem_of_here.
  - rewrite fmap_cons, IH.
    destruct (decide (ID ev ∈ ID <$> result)) as [Hin|Hnin].
    + rewrite decide_True; [done|]. by apply list_elem_of_further.
    + rewrite decide_False; [done|].
      intros [?|?]%elem_of_cons; congruence.
Qed.

Lemma mergeInto_NoDup result ev :
  NoDup (ID <$> result) -> NoDup (ID <$> mergeInto result ev).
Proof.
  intros Hnd. rewrite mergeInto_ids. case_decide; [done|].
  apply NoDup_app. split_and!; [done| |apply NoDup_singleton].
  intros x Hx ->%list_elem_of_singleton. done.
Qed.

Lemma dedupe_step_mergeInto seen result ev :
  seen_ok seen result ->
  exists seen',
    dedupe_step (seen, result) ev = Some (seen', mergeInto result ev)
    /\ seen_ok seen' (mergeInto result ev).
Proof.
  intros [Hnd Hseen]. unfold dedupe_step.
  destruct (seen !! ID ev) as [idx|] eqn:Hlook.
  - pose proof (proj1 (Hseen _ _) Hlook) as Hidx.
    rewrite list_lookup_fmap in Hidx.
    destruct (result !! idx) as [r|] eqn:Hr; [|done].
    simpl in Hidx. injection Hidx as Hid.
    exists seen. rewrite (mergeInto_hit result ev idx r) by done.
    split; [done|]. split.
    + rewrite list_fmap_insert. simpl. rewrite Hid.
      rewrite list_insert_id; [done|]. by apply Hseen.
    + intros i j. rewrite list_fmap_insert. simpl. rewrite Hid.
      rewrite list_insert_id; [apply Hseen|]. by apply Hseen.
  - assert (ID ev ∉ ID <$> result) as Hfresh.
    { intros [j Hj]%list_elem_of_lookup_1. apply Hseen in Hj. congruence. }
    exists (<[ID ev := length result]> seen).
    rewrite mergeInto_fresh by done. split; [done|]. split.
    + rewrite fmap_app. simpl. apply NoDup_app. split_and!; [done| |apply NoDup_singleton].
      intros x Hx ->%list_elem_of_singleton. done.
    + intros i j. rewrite fmap_app. simpl.
      destruct (decide (i = ID ev)) as [->|Hne].
      * rewrite lookup_insert_eq. split.
        -- intros [= <-]. rewrite lookup_app_r; rewrite length_fmap; [|lia].
           by rewrite Nat.sub_diag.
        -- intros Hj. f_equal.
           destruct (decide (j < length result)) as [Hlt|Hge].
           ++ rewrite lookup_app_l in Hj by (by rewrite length_fmap).
              exfalso. apply Hfresh. by eapply list_elem_of_lookup_2.
           ++ apply lookup_lt_Some in Hj. rewrite length_app, length_fmap in Hj.
              simpl in Hj. lia.
      * rewrite lookup_insert_ne by done. rewrite Hseen. split.
        -- intros Hj. rewrite lookup_app_l; [done|]. by eapply lookup_lt_Some.
        -- intros Hj. destruct (decide (j < length result)) as [Hlt|Hge].
           ++ by rewrite lookup_app_l in Hj by (by rewrite length_fmap).
           ++ rewrite lookup_app_r in Hj by (rewrite length_fmap; lia).
              apply list_lookup_singleton_Some in Hj as [_ ?]. congruence.
Qed.

Lemma dedupe_loop_mergeInto events seen result :
  seen_ok seen result ->
  exists seen',
    dedupe_loop events (seen, result) = Some (seen', foldl mergeInto result events)
    /\ seen_ok seen' (foldl mergeInto result events).
Proof.
  revert seen result. induction events as [|ev events IH]; intros seen result Hok.
  - by exists seen.
  - cbn [dedupe_loop foldl].
    destruct (dedupe_step_mergeInto seen result ev Hok) as (seen1 & -> & Hok1).
    by apply IH.
Qed.

Lemma seen_ok_empty : seen_ok ∅ [].
Proof.
  split; [apply NoDup_nil_2|]. intros i idx. by rewrite lookup_empty.
Qed.

Lemma dedupeTeamEvents_mergeById events :
  dedupeTeamEvents events = Some (mergeById events).
Proof.
  unfold dedupeTeamEvents, mergeById.
  destruct (dedupe_loop_mergeInto events ∅ [] seen_ok_empty) as (seen & -> & _).
  done.
Qed.

(** ** The shape of the deduplicated list *)

Lemma string_app_assoc (a b c : string) : (a +:+ b) +:+ c = a +:+ (b +:+ c).
Proof.
  induction a as [|x a IH]; [done|].
  change (String x ((a +:+ b) +:+ c) = String x (a +:+ (b +:+ c))).
  by rewrite IH.
Qed.

Lemma Join_snoc (ws : list string) (w sep : string) :
  ws <> [] ->
  strings.Join (ws ++ [w]) sep = strings.Join ws sep +:+ (sep +:+ w).
Proof.
  unfold strings.Join. induction ws as [|a ws IH]; [done|]. intros _.
  destruct ws as [|b ws]; [done|].
  change (a +:+ (sep +:+ String.concat sep ((b :: ws) ++ [w])) =
          (a +:+ (sep +:+ String.concat sep (b :: ws))) +:+ (sep +:+ w)).
  rewrite IH by done. by rewrite !string_app_assoc.
Qed.

Lemma withWho_same e : withWho (Who e) e = e.
Proof. by destruct e. Qed.

Lemma appendWho_withWho who f w :
  appendWho (withWho who f) w = withWho (who +:+ (", " +:+ w)) f.
Proof. done. Qed.

Lemma mergeById_snoc l ev : mergeById (l ++ [ev]) = mergeInto (mergeById l) ev.
Proof. unfold mergeById. by rewrite foldl_snoc. Qed.

Lemma elem_of_firstSeen i ids : i ∈ firstSeen ids <-> i ∈ ids.
Proof.
  induction ids as [|j ids IH]; [done|]. cbn [firstSeen].
  rewrite !elem_of_cons, list_elem_of_filter, IH.
  destruct (decide (i = j)) as [Heq|Hne].
  - split; intros _; by left.
  - split.
    + intros [?|[_ ?]]; [done|by right].
    + intros [?|?]; [done|]. right. by split.
Qed.

Lemma NoDup_firstSeen ids : NoDup (firstSeen ids).
Proof.
  induction ids as [|j ids IH]; [apply NoDup_nil_2|]. cbn [firstSeen].
  apply NoDup_cons. split; [|by apply NoDup_filter].
  rewrite list_elem_of_filter. intros [? _]. congruence.
Qed.

Lemma firstSeen_snoc ids i :
  firstSeen (ids ++ [i]) =
  if decide (i ∈ ids) then firstSeen ids else firstSeen ids ++ [i].
Proof.
  induction ids as [|j ids IH]; [done|].
  rewrite <- app_comm_cons. cbn [firstSeen]. rewrite IH.
  destruct (decide (i = j)) as [->|Hne].
  - rewrite (decide_True (P := j ∈ j :: ids)) by apply list_elem_of_here.
    case_decide; [done|]. rewrite filter_app.
    rewrite (filter_cons_False _ j []) by (intros ?; congruence).
    by rewrite filter_nil, app_nil_r.
  - destruct (decide (i ∈ ids)) as [Hin|Hnin].
    + rewrite decide_True; [done|]. by apply list_elem_of_further.
    + rewrite decide_False by (intros [?|?]%elem_of_cons; done).
      rewrite filter_app, (filter_cons_True _ i []) by done.
      by rewrite filter_nil.
Qed.

Lemma mergeById_ids l : ID <$> mergeById l = firstSeen (ID <$> l).
Proof.
  induction l as [|ev l IH] using rev_ind; [done|].
  rewrite mergeById_snoc, mergeInto_ids, fmap_app, IH. cbn [fmap list_fmap].
  rewrite firstSeen_snoc.
  destruct (decide (ID ev ∈ ID <$> l)) as [Hin|Hnin].
  - rewrite decide_True; [done|]. by apply elem_of_firstSeen.
  - rewrite decide_False; [done|]. by rewrite elem_of_firstSeen.
Qed.

Lemma mergeById_NoDup l : NoDup (ID <$> mergeById l).
Proof. rewrite mergeById_ids. apply NoDup_firstSeen. Qed.

Lemma mergeById_same_ids l i : i ∈ ID <$> mergeById l <-> i ∈ ID <$> l.
Proof. rewrite mergeById_ids. apply elem_of_firstSeen. Qed.

Lemma mergeInto_elem result ev e :
  NoDup (ID <$> result) ->
  e ∈ mergeInto result ev ->
  (e ∈ result /\ ID e <> ID ev)
  \/ (exists r, r ∈ result /\ ID r = ID ev /\ e = appendWho r (Who ev))
  \/ (e = ev /\ ID ev ∉ ID <$> result).
Proof.
  induction result as [|r result IH]; intros Hnd He.
  - apply list_elem_of_singleton in He as ->. right; right.
    split; [done|apply not_elem_of_nil].
  - rewrite fmap_cons in Hnd. apply NoDup_cons in Hnd as [Hr Hnd].
    cbn [mergeInto] in He. destruct (decide (ID r = ID ev)) as [Heq|Hne].
    + apply elem_of_cons in He as [->|He].
      * right; left. exists r. split_and!; [apply list_elem_of_here|done..].
      * left. split; [by apply list_elem_of_further|].
        intros Hid. apply Hr. rewrite Heq, <- Hid. by apply list_elem_of_fmap_2.
    + apply elem_of_cons in He as [->|He].
      * left. split; [apply list_elem_of_here|done].
      * destruct (IH Hnd He) as [[? ?]|[(r' & ? & ? & ?)|[? Hfresh]]].
        -- left. split; [by apply list_elem_of_further|done].
        -- right; left. exists r'. split_and!; [by apply list_elem_of_further|done..].
        -- right; right. split; [done|].
           rewrite fmap_cons. apply not_elem_of_cons. split; [congruence|done].
Qed.

Lemma occurrences_snoc i l ev :
  occurrences i (l ++ [ev]) =
  if decide (ID ev = i) then occurrences i l ++ [ev] else occurrences i l.
Proof.
  unfold occurrences. rewrite filter_app. case_decide.
  - by rewrite (filter_cons_True _ ev []), filter_nil.
  - by rewrite (filter_cons_False _ ev []), filter_nil, app_nil_r.
Qed.

Lemma occurrences_nil i l : i ∉ ID <$> l -> occurrences i l = [].
Proof.
  intros Hnot. unfold occurrences. induction l as [|x l IH]; [done|].
  rewrite fmap_cons in Hnot. apply not_elem_of_cons in Hnot as [Hne Hnot].
  rewrite filter_cons_False by congruence. by apply IH.
Qed.

Lemma mergeById_canonical l e : e ∈ mergeById l -> canonical l e.
Proof.
  revert e. induction l as [|ev l IH] using rev_ind; intros e He.
  { by apply elem_of_nil in He. }
  rewrite mergeById_snoc in He.
  apply mergeInto_elem in He as [[He Hne]|[(r & Hr & Hid & ->)|[-> Hfresh]]];
    [| | |apply mergeById_NoDup].
  - destruct (IH e He) as (f & rest & Hocc & Heq).
    exists f, rest. split; [|done].
    rewrite occurrences_snoc, decide_False by congruence. done.
  - destruct (IH r Hr) as (f & rest & Hocc & Heq).
    exists f, (rest ++ [ev]). split.
    + change (ID (appendWho r (Who ev))) with (ID r).
      rewrite occurrences_snoc, decide_True by congruence.
      by rewrite Hocc.
    + rewrite Heq at 1. rewrite appendWho_withWho. f_equal.
      rewrite (app_comm_cons rest [ev] f), fmap_app.
      change (Who <$> [ev]) with [Who ev].
      by rewrite Join_snoc.
  - exists ev, []. split.
    + rewrite occurrences_snoc, decide_True by done.
      rewrite occurrences_nil; [done|]. by rewrite <- mergeById_same_ids.
    + change (strings.Join (Who <$> [ev]) ", ") with (Who ev).
      by rewrite withWho_same.
Qed.

Lemma occurrences_NoDup i l : NoDup (ID <$> l) -> length (occurrences i l) <= 1.
Proof.
  unfold occurrences. induction l as [|x l IH]; [simpl; lia|].
  rewrite fmap_cons. intros [Hx Hnd]%NoDup_cons.
  destruct (decide (ID x = i)) as [<-|Hne].
  - rewrite filter_cons_True by done.
    fold (occurrences (ID x) l). by rewrite occurrences_nil.
  - rewrite filter_cons_False by done. by apply IH.
Qed.

Lemma firstSeen_NoDup_id ids : NoDup ids -> firstSeen ids = ids.
Proof.
  induction ids as [|i ids IH]; [done|]. intros [Hi Hnd]%NoDup_cons.
  cbn [firstSeen]. rewrite IH by done. f_equal.
  clear IH Hnd. induction ids as [|j ids IH]; [done|].
  apply not_elem_of_cons in Hi as [Hne Hi].
  rewrite filter_cons_True by congruence. f_equal. by apply IH.
Qed.

(** C1: [dedupeTeamEvents] returns, for every list, exactly one entry
    per distinct event id, the entries standing in the order in which
    their ids first occur in the input; the [Who] of an entry is the
    comma-joined list of the [Who] of the input events with that id, in
    input order.  When the contributions to an id come from distinct
    members this is their union in first-seen order, and when two
    members each contribute one event with the same id the entry reads
    "first, second". *)
Theorem dedupeTeamEvents_merges_owners (l : list teamEvent) :
  exists out,
    dedupeTeamEvents l = Some out
    /\ NoDup (ID <$> out)
    /\ (forall i, i ∈ ID <$> out <-> i ∈ ID <$> l)
    /\ ID <$> out = firstSeen (ID <$> l)
    /\ (forall e, e ∈ out ->
          Who e = strings.Join (Who <$> occurrences (ID e) l) ", "
          /\ (NoDup (Who <$> occurrences (ID e) l) ->
              Who e = strings.Join (firstSeen (Who <$> occurrences (ID e) l)) ", "))
    /\ (forall i e1 e2, occurrences i l = [e1; e2] ->
          exists e, occurrences i out = [e]
                    /\ Who e = Who e1 +:+ ", " +:+ Who e2).
Proof.
  exists (mergeById l). split; [apply dedupeTeamEvents_mergeById|].
  split; [apply mergeById_NoDup|].
  split; [apply mergeById_same_ids|].
  split; [apply mergeById_ids|].
  assert (forall e, e ∈ mergeById l ->
            Who e = strings.Join (Who <$> occurrences (ID e) l) ", ") as Hwho.
  { intros e (f & rest & Hocc & Heq)%mergeById_canonical.
    rewrite Hocc. by rewrite Heq at 1. }
  split.
  - intros e He. split; [by apply Hwho|].
    intros Hnd. rewrite firstSeen_NoDup_id by done. by apply Hwho.
  - intros i e1 e2 Hocc.
    assert (i ∈ ID <$> mergeById l) as Hin.
    { apply mergeById_same_ids.
      assert (e1 ∈ occurrences i l) as He1 by (rewrite Hocc; apply list_elem_of_here).
      apply list_elem_of_filter in He1 as [<- He1]. by apply list_elem_of_fmap_2. }
    apply list_elem_of_fmap in Hin as (e & -> & He).
    exists e. split.
    + pose proof (occurrences_NoDup (ID e) (mergeById l) (mergeById_NoDup l)) as Hlen.
      assert (e ∈ occurrences (ID e) (mergeById l)) as Hmem
        by (by apply list_elem_of_filter).
      destruct (occurrences (ID e) (mergeById l)) as [|x [|y rest]];
        [by apply elem_of_nil in Hmem| |simpl in Hlen; lia].
      by apply list_elem_of_singleton in Hmem as ->.
    + rewrite (Hwho e He), Hocc. done.
Qed.

(** C10: the output of [dedupeTeamEvents] has pairwise distinct ids (at
    most one entry has the empty id), as many entries as the input has
    distinct ids, and each entry equals the first input event with its
    id in every field but [Who], the later events with that id giving
    only their [Who]. *)
Theorem dedupeTeamEvents_distinct_ids (l : list teamEvent) :
  exists out,
    dedupeTeamEvents l = Some out
    /\ NoDup (ID <$> out)
    /\ length (occurrences "" out) <= 1
    /\ length out = size (list_to_set (ID <$> l) : gset string)
    /\ (forall e, e ∈ out ->
          exists f rest,
            occurrences (ID e) l = f :: rest
            /\ ID e = ID f /\ Start e = Start f /\ End e = End f
            /\ Summary e = Summary f /\ Status e = Status f
            /\ sortKey e = sortKey f
            /\ Who e = strings.Join (Who f :: (Who <$> rest)) ", ").
Proof.
  exists (mergeById l). split; [apply dedupeTeamEvents_mergeById|].
  split; [apply mergeById_NoDup|].
  split; [apply occurrences_NoDup, mergeById_NoDup|].
  split.
  - rewrite <- (length_fmap ID (mergeById l)).
    rewrite <- (size_list_to_set (C := gset string)) by apply mergeById_NoDup.
    f_equal. apply set_eq. intros i.
    rewrite !elem_of_list_to_set. apply mergeById_same_ids.
  - intros e (f & rest & Hocc & Heq)%mergeById_canonical.
    exists f, rest. split; [done|]. by rewrite Heq.
Qed.

(** ** Order of the output *)

(** [time.midnight] is the start of a day: a whole number of days
    after the zero time. *)
Lemma midnight_starts_a_day y m d : (time.midnight y m d mod time.nsPerDay = 0)%Z.
Proof.
  unfold time.midnight, time.Date, time.nsPerDay.
  replace (((time.daysBeforeYear y + time.daysBeforeMonth m y + (d - 1)) * 86400
            + 0 * 3600 + 0 * 60 + 0) * time.nsPerSecond + 0)%Z
    with ((time.daysBeforeYear y + time.daysBeforeMonth m y + (d - 1))
          * (86400 * time.nsPerSecond))%Z by lia.
  apply Z_mod_mult.
Qed.

Lemma Date_after_midnight y m d hh mm ss ns :
  time.Date y m d hh mm ss ns
  = (time.midnight y m d + (hh * 3600 + mm * 60 + ss) * time.nsPerSecond + ns)%Z.
Proof. unfold time.midnight, time.Date. lia. Qed.

Lemma less_false a b : less b a = false <-> (sortKey a <= sortKey b)%Z.
Proof. unfold less, time.Before. rewrite Z.ltb_ge. done. Qed.

Lemma sortedByStart_keys l :
  sortedByStart l <-> StronglySorted Z.le (sortKey <$> l).
Proof.
  unfold sortedByStart. induction l as [|a l IH].
  - split; intros _; constructor.
  - rewrite fmap_cons. split; intros Hs.
    + apply StronglySorted_inv in Hs as [Hs Hall]. constructor; [by apply IH|].
      rewrite Forall_fmap. eapply Forall_impl; [exact Hall|].
      intros b Hb. by apply less_false.
    + apply StronglySorted_inv in Hs as [Hs Hall]. constructor; [by apply IH|].
      rewrite Forall_fmap in Hall. eapply Forall_impl; [exact Hall|].
      intros b Hb. by apply less_false.
Qed.

Lemma StronglySorted_sublist {A} (R : A -> A -> Prop) (l1 l2 : list A) :
  l1 `sublist_of` l2 -> StronglySorted R l2 -> StronglySorted R l1.
Proof.
  induction 1 as [|x l1 l2 Hsub IH|x l1 l2 Hsub IH]; intros Hs.
  - constructor.
  - apply StronglySorted_inv in Hs as [Hs Hall]. constructor; [by apply IH|].
    rewrite Forall_forall in Hall |- *. intros y Hy. apply Hall.
    by eapply sublist_subseteq.
  - apply StronglySorted_inv in Hs as [Hs _]. by apply IH.
Qed.

Lemma mergeInto_keys result ev :
  sortKey <$> mergeInto result ev =
  if decide (ID ev ∈ ID <$> result) then sortKey <$> result
  else (sortKey <$> result) ++ [sortKey ev].
Proof.
  induction result as [|r result IH]; [done|].
  cbn [mergeInto]. rewrite !fmap_cons.
  destruct (decide (ID r = ID ev)) as [Heq|Hne].
  - rewrite decide_True; [done|]. rewrite Heq. apply list_elem_of_here.
  - rewrite fmap_cons, IH.
    destruct (decide (ID ev ∈ ID <$> result)) as [Hin|Hnin].
    + rewrite decide_True; [done|]. by apply list_elem_of_further.
    + rewrite decide_False; [done|].
      intros [?|?]%elem_of_cons; congruence.
Qed.

Lemma mergeById_keys_sublist l :
  (sortKey <$> mergeById l) `sublist_of` (sortKey <$> l).
Proof.
  induction l as [|ev l IH] using rev_ind; [done|].
  rewrite mergeById_snoc, mergeInto_keys, fmap_app. case_decide.
  - by apply sublist_inserts_r.
  - by apply sublist_app.
Qed.

Lemma mergeById_sorted l : sortedByStart l -> sortedByStart (mergeById l).
Proof.
  rewrite !sortedByStart_keys. apply StronglySorted_sublist, mergeById_keys_sublist.
Qed.

Lemma mergeById_NoDup_id l : NoDup (ID <$> l) -> mergeById l = l.
Proof.
  induction l as [|ev l IH] using rev_ind; [done|].
  rewrite fmap_app. intros (Hnd & Hdisj & _)%NoDup_app.
  rewrite mergeById_snoc, IH by done. apply mergeInto_fresh.
  intros Hin. apply (Hdisj _ Hin). apply list_elem_of_here.
Qed.

Lemma sorted_first_occurrence l i f rest x :
  sortedByStart l ->
  occurrences i l = f :: rest ->
  x ∈ l -> ID x = i ->
  (sortKey f <= sortKey x)%Z.
Proof.
  intros Hs Hocc Hx Hid.
  assert (sortedByStart (f :: rest)) as Hs'.
  { rewrite <- Hocc. eapply StronglySorted_sublist; [|exact Hs].
    apply sublist_filter. }
  assert (x ∈ f :: rest) as Hmem.
  { rewrite <- Hocc. by apply list_elem_of_filter. }
  apply StronglySorted_inv in Hs' as [_ Hall].
  apply elem_of_cons in Hmem as [->|Hmem]; [lia|].
  rewrite Forall_forall in Hall. by apply less_false, Hall.
Qed.

Lemma sortedByStart_lookup l i j a b :
  sortedByStart l -> i <= j -> l !! i = Some a -> l !! j = Some b ->
  (sortKey a <= sortKey b)%Z.
Proof.
  intros Hs Hij Ha Hb. destruct (decide (i = j)) as [->|Hne].
  - rewrite Ha in Hb. injection Hb as ->. lia.
  - revert i j Hij Hne Ha Hb. induction Hs as [|x l Hs IH Hall]; intros i j Hij Hne Ha Hb.
    + by rewrite lookup_nil in Ha.
    + destruct i as [|i], j as [|j]; simpl in *; try lia.
      * injection Ha as ->. rewrite Forall_forall in Hall.
        apply less_false, Hall. by eapply list_elem_of_lookup_2.
      * apply (IH i j); [lia|lia|done..].
Qed.

Lemma finalEvents_total c evs :
  finalEvents c evs =
  Some (if NoDedup c then sortSlice evs else mergeById (sortSlice evs)).
Proof.
  unfold finalEvents. destruct (NoDedup c); [done|].
  apply dedupeTeamEvents_mergeById.
Qed.

Lemma finalEvents_sorted c evs out :
  finalEvents c evs = Some out -> sortedByStart out.
Proof using sortSlice_sorted.
  rewrite finalEvents_total. intros [= <-].
  destruct (NoDedup c); [apply sortSlice_sorted|].
  apply mergeById_sorted, sortSlice_sorted.
Qed.

(** C3: whatever the workers put in the buffer, the list that
    [runEvents] renders (sort by [sortKey], then [dedupeTeamEvents]) is
    in non-decreasing order of start timestamp; a merged entry has the
    timestamp of the first event with its id in the sorted list, which
    no event with that id precedes; and the timestamp of an all-day
    event is the midnight that starts its date, so that no timed event
    of that date sorts before it. *)
Theorem runEvents_output_sorted (c : CalendarTeamCmd) (evs : list teamEvent) :
  exists out,
    finalEvents c evs = Some out
    /\ sortedByStart out
    /\ (forall i j a b, i <= j -> out !! i = Some a -> out !! j = Some b ->
          (sortKey a <= sortKey b)%Z)
    /\ (forall fetches r, runEvents c fetches r -> sortedByStart (shown r))
    /\ (NoDedup c = false ->
        forall e, e ∈ out ->
          exists f rest,
            occurrences (ID e) (sortSlice evs) = f :: rest
            /\ sortKey e = sortKey f
            /\ forall x, x ∈ evs -> ID x = ID e -> (sortKey e <= sortKey x)%Z)
    /\ (forall ev st y m d,
          calendar.Start ev = Some st ->
          calendar.DateTime st = "" ->
          time.parseCivil (calendar.Date st) = Some (y, m, d) ->
          parseEventStart ev = time.midnight y m d
          /\ (parseEventStart ev mod time.nsPerDay = 0)%Z
          /\ forall hh mm ss ns,
               (0 <= hh)%Z -> (0 <= mm)%Z -> (0 <= ss)%Z -> (0 <= ns)%Z ->
               time.Before (time.Date y m d hh mm ss ns) (parseEventStart ev) = false).
Proof using sortSlice_perm sortSlice_sorted.
  eexists. split; [apply finalEvents_total|].
  assert (sortedByStart
            (if NoDedup c then sortSlice evs else mergeById (sortSlice evs))) as Hs.
  { eapply finalEvents_sorted, finalEvents_total. }
  split; [done|]. split; [intros i j a b; by apply sortedByStart_lookup|].
  split; [|split].
  - intros fetches r (s & _ & _ & _ & Hfin). by eapply finalEvents_sorted.
  - intros -> e (f & rest & Hocc & Heq)%mergeById_canonical.
    exists f, rest. split; [done|]. split; [by rewrite Heq|].
    intros x Hx Hid. rewrite Heq at 1. cbn [sortKey withWho].
    eapply sorted_first_occurrence; [apply sortSlice_sorted|exact Hocc| |done].
    by rewrite sortSlice_perm.
  - intros ev st y m d Hst Hdt Hciv.
    assert (parseEventStart ev = time.midnight y m d) as ->.
    { unfold parseEventStart.
      rewrite Hst, Hdt. cbn [nonEmpty String.eqb negb].
      unfold time.ParseDate. rewrite Hciv.
      destruct (nonEmpty (calendar.Date st)) eqn:Hne; [done|].
      apply negb_false_iff, String.eqb_eq in Hne. by rewrite Hne in Hciv. }
    split; [done|]. split; [apply midnight_starts_a_day|].
    intros hh mm ss ns Hhh Hmm Hss Hns. rewrite Date_after_midnight.
    unfold time.Before, time.nsPerSecond. lia.
Qed.

Lemma NoDup_fmap_eq {A B} (f : A -> B) (l : list A) x y :
  NoDup (f <$> l) -> x ∈ l -> y ∈ l -> f x = f y -> x = y.
Proof.
  induction l as [|a l IH]; [by intros _ ?%elem_of_nil|].
  rewrite fmap_cons. intros [Ha Hnd]%NoDup_cons.
  intros [->|Hx]%elem_of_cons [->|Hy]%elem_of_cons Hf.
  - done.
  - exfalso. apply Ha. rewrite Hf. by apply list_elem_of_fmap_2.
  - exfalso. apply Ha. rewrite <- Hf. by apply list_elem_of_fmap_2.
  - by apply IH.
Qed.

(** A list without two equal timestamps has one sorted arrangement. *)
Lemma sorted_arrangement_unique l1 l2 :
  NoDup (sortKey <$> l2) ->
  sortedByStart l1 -> sortedByStart l2 -> l1 ≡ₚ l2 -> l1 = l2.
Proof.
  intros Hnd Hs1 Hs2 Hperm.
  apply (StronglySorted_unique_strong (fun a b => less b a = false)); [|done..].
  intros x1 x2 Hx1 Hx2 H12%less_false H21%less_false.
  apply (NoDup_fmap_eq sortKey l2); [done| |done|lia].
  by rewrite <- Hperm.
Qed.

(** C4: deduplicating the output of [dedupeTeamEvents] again changes
    nothing; sorting and deduplicating the output of sort-then-dedup
    gives the same entries again, and the same list when no two
    entries have the same timestamp or when [sort.Slice] leaves an
    already sorted slice as it is. *)
Theorem sort_dedupe_idempotent (evs : list teamEvent) :
  (exists out,
     dedupeTeamEvents evs = Some out /\ dedupeTeamEvents out = Some out)
  /\ (exists out out',
        dedupeTeamEvents (sortSlice evs) = Some out
        /\ dedupeTeamEvents (sortSlice out) = Some out'
        /\ out' ≡ₚ out
        /\ (NoDup (sortKey <$> out) -> out' = out)
        /\ ((forall l, sortedByStart l -> sortSlice l = l) -> out' = out)).
Proof using sortSlice_perm sortSlice_sorted.
  split.
  - exists (mergeById evs). rewrite !dedupeTeamEvents_mergeById.
    split; [done|]. f_equal. apply mergeById_NoDup_id, mergeById_NoDup.
  - set (out := mergeById (sortSlice evs)).
    assert (mergeById (sortSlice out) = sortSlice out) as Hsnd.
    { apply mergeById_NoDup_id. rewrite sortSlice_perm. apply mergeById_NoDup. }
    assert (sortedByStart out) as Hsorted
      by apply mergeById_sorted, sortSlice_sorted.
    exists out, (sortSlice out). rewrite !dedupeTeamEvents_mergeById, Hsnd.
    split_and!; [done..|apply sortSlice_perm| |].
    + intros Hnd. apply sorted_arrangement_unique;
        [done|apply sortSlice_sorted|done|apply sortSlice_perm].
    + intros Hfix. by apply Hfix.
Qed.

(** ** Invariants of the fan-out *)

Ltac step_cases H :=
  inversion H as
    [ ws1 w ws2 evs errs n Hat Hcap
    | ws1 w ws2 evs errs n msg Hat Hresp
    | ws1 w ws2 evs errs n items Hat Hresp
    | ws1 w ws2 evs errs n item rest Hat
    | ws1 w ws2 evs errs n Hat
    | ws1 w ws2 evs errs n Hat ]; subst; cbn [workers events errors sem] in *.

Lemma step_fetches q s s' :
  step q s s' -> fetchOf <$> workers s' = fetchOf <$> workers s.
Proof. intros H. step_cases H; by rewrite !fmap_app, !fmap_cons. Qed.

Lemma init_fetches fetches : fetchOf <$> workers (init fetches) = fetches.
Proof.
  cbn [init workers]. induction fetches as [|[m r] fetches IH]; [done|].
  rewrite !fmap_cons, IH. done.
Qed.

(** Induction over the reachable states, from the initial one. *)
Lemma reachable_induction q fetches (P : state -> Prop) :
  P (init fetches) ->
  (forall s s', reachable q fetches s -> step q s s' -> P s -> P s') ->
  forall s, reachable q fetches s -> P s.
Proof.
  intros Hinit Hstep s Hreach. unfold reachable in *.
  by apply (rtc_ind_r P (init fetches) Hinit Hstep).
Qed.

Lemma reachable_fetches q fetches s :
  reachable q fetches s -> fetchOf <$> workers s = fetches.
Proof.
  revert s. apply reachable_induction.
  - apply init_fetches.
  - intros s s' _ Hstep IH. by rewrite (step_fetches _ _ _ Hstep).
Qed.

Lemma countWorkers_app f ws1 ws2 :
  countWorkers f (ws1 ++ ws2) = countWorkers f ws1 + countWorkers f ws2.
Proof. apply sum_list_with_app. Qed.

Lemma countWorkers_cons f w ws :
  countWorkers f (w :: ws) = (if f w then 1 else 0) + countWorkers f ws.
Proof. done. Qed.

Lemma step_sem q s s' :
  step q s s' ->
  sem s = countWorkers holdsSlot (workers s) ->
  sem s' = countWorkers holdsSlot (workers s').
Proof.
  intros H. step_cases H;
    rewrite !countWorkers_app, !countWorkers_cons;
    unfold holdsSlot; cbn [goto at_]; rewrite Hat; lia.
Qed.

Lemma step_cap q s s' : step q s s' -> sem s <= semCap -> sem s' <= semCap.
Proof. intros H. step_cases H; lia. Qed.

Lemma countWorkers_init f fetches :
  (forall w, at_ w = Waiting -> f w = false) ->
  countWorkers f (workers (init fetches)) = 0.
Proof.
  intros Hf. cbn [init workers]. induction fetches as [|x fetches IH]; [done|].
  rewrite fmap_cons, countWorkers_cons, IH. by rewrite Hf.
Qed.

Lemma reachable_sem q fetches s :
  reachable q fetches s ->
  sem s = countWorkers holdsSlot (workers s) /\ sem s <= semCap.
Proof.
  revert s. apply reachable_induction.
  - split; [|cbn; unfold semCap; lia].
    rewrite countWorkers_init; [done|].
    intros w Hw. unfold holdsSlot. by rewrite Hw.
  - intros s s' _ Hstep [IH1 IH2].
    split; [by eapply step_sem|by eapply step_cap].
Qed.

Lemma countWorkers_le (f g : worker -> bool) ws :
  (forall w, f w = true -> g w = true) ->
  countWorkers f ws <= countWorkers g ws.
Proof.
  intros Hfg. induction ws as [|w ws IH]; [done|].
  rewrite !countWorkers_cons. specialize (Hfg w).
  destruct (f w), (g w); try lia; by specialize (Hfg eq_refl).
Qed.

Lemma inFlight_holdsSlot w : inFlight w = true -> holdsSlot w = true.
Proof. unfold inFlight, holdsSlot. by destruct (at_ w). Qed.

Lemma contribution_cons q m item rest :
  contribution q m (item :: rest) =
  option_list (processItem q m item) ++ contribution q m rest.
Proof.
  unfold contribution. cbn [omap list_omap].
  by destruct (processItem q m item).
Qed.

Lemma contribution_app q m items1 items2 :
  contribution q m (items1 ++ items2) =
  contribution q m items1 ++ contribution q m items2.
Proof. apply omap_app. Qed.

Lemma step_events q s s' :
  step q s s' ->
  events s' ++ concat (pending q <$> workers s')
  ≡ₚ events s ++ concat (pending q <$> workers s).
Proof.
  intros H. step_cases H;
    rewrite !fmap_app, !fmap_cons, !concat_app, !concat_cons;
    unfold pending, total; cbn [goto at_ email response]; rewrite Hat;
    rewrite ?Hresp; try done.
  rewrite contribution_cons, <- !(assoc_L (++)).
  apply Permutation_app_head. apply Permutation_app_swap_app.
Qed.

Lemma step_errors q s s' :
  step q s s' ->
  errors s' ++ concat (pendingWarnings <$> workers s')
  ≡ₚ errors s ++ concat (pendingWarnings <$> workers s).
Proof.
  intros H. step_cases H;
    rewrite !fmap_app, !fmap_cons, !concat_app, !concat_cons;
    unfold pendingWarnings, totalWarnings; cbn [goto at_ email response];
    rewrite Hat; rewrite ?Hresp; try done.
  rewrite <- !(assoc_L (++)). apply Permutation_app_head.
  cbn [app]. apply Permutation_middle.
Qed.

Lemma reachable_events q fetches s :
  reachable q fetches s ->
  events s ++ concat (pending q <$> workers s)
  ≡ₚ concat (fetchEvents q <$> fetches).
Proof.
  revert s. apply reachable_induction.
  - cbn [init events workers app]. rewrite <- list_fmap_compose. done.
  - intros s s' _ Hstep IH. by rewrite (step_events _ _ _ Hstep).
Qed.

Lemma reachable_errors q fetches s :
  reachable q fetches s ->
  errors s ++ concat (pendingWarnings <$> workers s)
  ≡ₚ concat (fetchWarnings <$> fetches).
Proof.
  revert s. apply reachable_induction.
  - cbn [init errors workers app]. rewrite <- list_fmap_compose. done.
  - intros s s' _ Hstep IH. by rewrite (step_errors _ _ _ Hstep).
Qed.

Lemma finished_nothing_pending q s :
  finished s ->
  concat (pending q <$> workers s) = []
  /\ concat (pendingWarnings <$> workers s) = [].
Proof.
  unfold finished. induction 1 as [|w ws Hw _ [IH1 IH2]]; [done|].
  rewrite !fmap_cons, !concat_cons, IH1, IH2.
  unfold pending, pendingWarnings. by rewrite Hw.
Qed.

(** After [wg.Wait()] the buffers hold what the fetches give rise to,
    in some order. *)
Lemma finished_buffers q fetches s :
  reachable q fetches s -> finished s ->
  events s ≡ₚ concat (fetchEvents q <$> fetches)
  /\ errors s ≡ₚ concat (fetchWarnings <$> fetches).
Proof.
  intros Hreach Hfin.
  destruct (finished_nothing_pending q s Hfin) as [Hp Hw].
  pose proof (reachable_events _ _ _ Hreach) as He.
  pose proof (reachable_errors _ _ _ Hreach) as Hr.
  rewrite Hp, app_nil_r in He. rewrite Hw, app_nil_r in Hr. done.
Qed.

(** ** The fan-out ends, and it ends with every worker done *)

Lemma step_measure q s s' : step q s s' -> measure s' < measure s.
Proof.
  intros H. step_cases H; unfold measure; cbn [workers];
    rewrite !sum_list_with_app; cbn [sum_list_with];
    unfold weight; cbn [goto at_ response]; rewrite Hat; rewrite ?Hresp;
    cbn [length]; lia.
Qed.


Lemma done_or_split (ws : list worker) :
  Forall (fun w => at_ w = Done) ws
  \/ exists ws1 w ws2, ws = ws1 ++ w :: ws2 /\ at_ w <> Done.
Proof.
  induction ws as [|w ws IH]; [by left|].
  destruct (at_ w) eqn:Hat;
    try (right; exists [], w, ws; split; [done|congruence]).
  destruct IH as [IH|(ws1 & w' & ws2 & -> & Hw')].
  - left. by constructor.
  - right. by exists (w :: ws1), w', ws2.
Qed.

Lemma holder_split (ws : list worker) :
  0 < countWorkers holdsSlot ws ->
  exists ws1 w ws2, ws = ws1 ++ w :: ws2 /\ holdsSlot w = true.
Proof.
  induction ws as [|w ws IH]; [cbn; lia|].
  rewrite countWorkers_cons. destruct (holdsSlot w) eqn:Hw.
  - intros _. by exists [], w, ws.
  - intros Hpos. destruct IH as (ws1 & w' & ws2 & -> & Hw'); [lia|].
    by exists (w :: ws1), w', ws2.
Qed.

Lemma holder_steps q ws1 w ws2 evs errs :
  holdsSlot w = true ->
  exists s',
    step q {| workers := ws1 ++ w :: ws2; events := evs; errors := errs;
              sem := countWorkers holdsSlot (ws1 ++ w :: ws2) |} s'.
Proof.
  intros Hw.
  assert (exists n, countWorkers holdsSlot (ws1 ++ w :: ws2) = S n) as [n ->].
  { rewrite countWorkers_app, countWorkers_cons, Hw.
    eexists. rewrite Nat.add_succ_r. done. }
  unfold holdsSlot in Hw. destruct (at_ w) as [| |items| |] eqn:Hat; try done.
  - destruct (response w) as [items|msg] eqn:Hresp; eexists.
    + by eapply step_fetch_ok.
    + by eapply step_fetch_err.
  - destruct items as [|item rest]; eexists.
    + by eapply step_loop_end.
    + by eapply step_emit.
  - eexists. by eapply step_release.
Qed.

(** No deadlock: while a worker is not done, some worker can act. *)
Lemma progress q s :
  sem s = countWorkers holdsSlot (workers s) ->
  finished s \/ exists s', step q s s'.
Proof.
  destruct s as [ws evs errs n]. cbn [sem workers]. intros ->.
  destruct (done_or_split ws) as [Hdone|(ws1 & w & ws2 & -> & Hw)]; [by left|].
  right. destruct (holdsSlot w) eqn:Hhold; [by apply holder_steps|].
  destruct (decide (countWorkers holdsSlot (ws1 ++ w :: ws2) < semCap)) as [Hlt|Hge].
  - eexists. eapply step_acquire; [|exact Hlt].
    unfold holdsSlot in Hhold. by destruct (at_ w).
  - destruct (holder_split (ws1 ++ w :: ws2)) as (ws1' & w' & ws2' & Heq & Hw').
    { unfold semCap in Hge. lia. }
    rewrite Heq. by apply holder_steps.
Qed.

Lemma runs_to_the_end q s :
  sem s = countWorkers holdsSlot (workers s) ->
  exists s', rtc (step q) s s' /\ finished s'.
Proof.
  remember (measure s) as k eqn:Hk. revert s Hk.
  induction k as [k IH] using lt_wf_ind. intros s -> Hsem.
  destruct (progress q s Hsem) as [Hfin|[s1 Hstep]].
  - by exists s.
  - destruct (IH (measure s1) (step_measure _ _ _ Hstep) s1 eq_refl) as (s' & Hrtc & Hfin).
    { by eapply step_sem. }
    exists s'. split; [|done]. by eapply rtc_l.
Qed.


Lemma step_starts_fetch q s s' :
  step q s s' ->
  countWorkers inFlight (workers s) < countWorkers inFlight (workers s') ->
  sem s < semCap /\ sem s' = S (sem s).
Proof.
  intros H. step_cases H; try done;
    rewrite !countWorkers_app, !countWorkers_cons;
    unfold inFlight; cbn [goto at_]; rewrite Hat; lia.
Qed.

Lemma step_frees_slot q s s' :
  step q s s' ->
  sem s' < sem s ->
  exists ws1 w ws2,
    workers s = ws1 ++ w :: ws2 /\ at_ w = Returning
    /\ workers s' = ws1 ++ goto w Done :: ws2 /\ sem s = S (sem s').
Proof.
  intros H. step_cases H; try lia. intros _. by exists ws1, w, ws2.
Qed.

(** C9: in every state that the fan-out of [runEvents] can reach,
    whatever the number of members, at most 10 events-list calls are in
    flight: the workers between their send on [sem] and their receive
    from it are as many as the tokens in the channel, which holds at
    most 10; a call starts only in the action that puts a token in, and
    a token is taken out only by a worker whose call has returned. *)
Theorem at_most_ten_fetches_in_flight (queryLower : string)
    (fetches : list (string * result (list (option calendar.Event))))
    (s : state) :
  reachable queryLower fetches s ->
  countWorkers inFlight (workers s) <= 10
  /\ countWorkers inFlight (workers s) <= countWorkers holdsSlot (workers s)
  /\ countWorkers holdsSlot (workers s) = sem s
  /\ sem s <= semCap
  /\ (forall s', step queryLower s s' ->
        countWorkers inFlight (workers s) < countWorkers inFlight (workers s') ->
        sem s < semCap /\ sem s' = S (sem s))
  /\ (forall s', step queryLower s s' -> sem s' < sem s ->
        exists ws1 w ws2,
          workers s = ws1 ++ w :: ws2 /\ at_ w = Returning
          /\ workers s' = ws1 ++ goto w Done :: ws2).
Proof.
  intros Hreach. destruct (reachable_sem _ _ _ Hreach) as [Hsem Hcap].
  pose proof (countWorkers_le inFlight holdsSlot (workers s) inFlight_holdsSlot) as Hle.
  split_and!; [unfold semCap in Hcap; lia|done|done|done| |].
  - intros s' Hstep. by apply (step_starts_fetch queryLower).
  - intros s' Hstep Hlt.
    destruct (step_frees_slot _ _ _ Hstep Hlt) as (ws1 & w & ws2 & ? & ? & ? & _).
    by exists ws1, w, ws2.
Qed.

Lemma concat_fetchWarnings_ok fetches :
  Forall (fun f : string * result (list (option calendar.Event)) =>
            exists items, f.2 = Ok items) fetches ->
  concat (fetchWarnings <$> fetches) = [].
Proof.
  induction 1 as [|f fetches [items Hf] _ IH]; [done|].
  rewrite fmap_cons, concat_cons, IH. unfold fetchWarnings. by rewrite Hf.
Qed.


Lemma runEvents_buffers c fetches r :
  runEvents c fetches r ->
  warnings r ≡ₚ concat (fetchWarnings <$> fetches)
  /\ exists buffer,
       buffer ≡ₚ concat (fetchEvents (strings.ToLower unicodeLower (Query c)) <$> fetches)
       /\ finalEvents c buffer = Some (shown r).
Proof.
  intros (s & Hreach & Hfin & Hw & Hout).
  destruct (finished_buffers _ _ _ Hreach Hfin) as [He Hr].
  split; [by rewrite Hw|]. by exists (events s).
Qed.


(** ** Normalisation of the raw events *)

Lemma prefix_spec (p s : string) :
  String.prefix p s = true <-> exists b, s = p +:+ b.
Proof.
  revert s. induction p as [|c p IH]; intros s.
  - split; [intros _; by exists s|intros _; by destruct s].
  - destruct s as [|d s]; cbn [String.prefix].
    + split; [done|]. intros [b Hb]. discriminate Hb.
    + destruct (ascii_dec c d) as [->|Hne].
      * rewrite IH. split; intros [b Hb]; exists b.
        -- by rewrite Hb.
        -- by injection Hb.
      * split; [done|]. intros [b Hb]. injection Hb as Hcd _. congruence.
Qed.

(** [strings.Contains] is the substring relation. *)
Lemma Contains_spec (s sub : string) :
  strings.Contains s sub = true <-> exists a b, s = a +:+ sub +:+ b.
Proof.
  induction s as [|c s IH]; cbn [strings.Contains];
    rewrite orb_true_iff, prefix_spec.
  - split.
    + intros [[b Hb]|?]; [|done]. by exists "", b.
    + intros (a & b & Hab). left. destruct a; [by exists b|discriminate Hab].
  - rewrite IH. split.
    + intros [[b Hb]|(a & b & Hab)]; [by exists "", b|].
      exists (String c a), b. by rewrite Hab.
    + intros (a & b & Hab). destruct a as [|c' a].
      * left. by exists b.
      * right. injection Hab as _ Hab. by exists a, b.
Qed.

Lemma declined_spec ev :
  declined ev = true <->
  exists att, att ∈ calendar.Attendees ev
              /\ calendar.Self att = true
              /\ calendar.ResponseStatus att = "declined".
Proof.
  unfold declined. rewrite existsb_exists. split.
  - intros (att & Hin & [Hself Hst]%andb_true_iff).
    exists att. rewrite list_elem_of_In. by apply String.eqb_eq in Hst.
  - intros (att & Hin & Hself & Hst). exists att.
    rewrite <- list_elem_of_In. split; [done|].
    rewrite Hself, Hst. done.
Qed.

Lemma processItem_Some q m item te :
  processItem q m item = Some te ->
  exists ev, item = Some ev /\ declined ev = false
             /\ filteredOut q (maskedSummary ev) = false
             /\ Who te = m /\ ID te = calendar.Id ev
             /\ Summary te = maskedSummary ev
             /\ Status te = calendar.Status ev
             /\ (Start te, End te) = formatEventTime ev
             /\ sortKey te = parseEventStart ev.
Proof.
  destruct item as [ev|]; [|done]. cbn [processItem].
  destruct (declined ev) eqn:Hd; [done|].
  destruct (filteredOut q (maskedSummary ev)) eqn:Hf; [done|].
  destruct (formatEventTime ev) as [start end_] eqn:Ht. intros [= <-].
  by exists ev.
Qed.

Lemma processItem_kept q m ev :
  declined ev = false ->
  filteredOut q (maskedSummary ev) = false ->
  processItem q m (Some ev) =
  Some {| Who := m; ID := calendar.Id ev; Start := (formatEventTime ev).1;
          End := (formatEventTime ev).2; Summary := maskedSummary ev;
          Status := calendar.Status ev; sortKey := parseEventStart ev |}.
Proof.
  intros Hd Hf. cbn [processItem]. rewrite Hd, Hf.
  by destruct (formatEventTime ev).
Qed.

Lemma elem_of_concat {A} (x : A) (ls : list (list A)) :
  x ∈ concat ls <-> exists l, x ∈ l /\ l ∈ ls.
Proof.
  rewrite list_elem_of_In, in_concat. split; intros (l & H1 & H2); exists l.
  - by rewrite !list_elem_of_In.
  - by rewrite <- !list_elem_of_In.
Qed.

Lemma buffer_sound q fetches s te :
  reachable q fetches s -> te ∈ events s ->
  exists m items item,
    (m, Ok items) ∈ fetches /\ item ∈ items
    /\ processItem q m item = Some te.
Proof.
  intros Hreach Hte.
  assert (te ∈ concat (fetchEvents q <$> fetches)) as Hin.
  { rewrite <- (reachable_events _ _ _ Hreach). apply elem_of_app. by left. }
  apply elem_of_concat in Hin as (evs & Hte' & Hevs).
  apply list_elem_of_fmap in Hevs as ([m r] & -> & Hf).
  unfold fetchEvents in Hte'. cbn [fst snd] in Hte'.
  destruct r as [items|msg]; [|by apply elem_of_nil in Hte'].
  apply list_elem_of_omap in Hte' as (item & Hitem & Hproc).
  by exists m, items, item.
Qed.

(** C5: an event in whose attendee list an attendee marked self has
    the response status "declined" gives no [teamEvent], whatever its
    summary, its visibility and the query; the contribution of the
    member is what it would be without that event, and no entry of the
    shared buffer comes from a declined event. *)
Theorem declined_events_are_excluded (queryLower member : string)
    (ev : calendar.Event) :
  (exists att, att ∈ calendar.Attendees ev
               /\ calendar.Self att = true
               /\ calendar.ResponseStatus att = "declined") ->
  processItem queryLower member (Some ev) = None
  /\ (forall before after,
        contribution queryLower member (before ++ Some ev :: after)
        = contribution queryLower member (before ++ after))
  /\ (forall fetches s te,
        reachable queryLower fetches s -> te ∈ events s ->
        exists m items ev',
          (m, Ok items) ∈ fetches /\ Some ev' ∈ items
          /\ declined ev' = false
          /\ processItem queryLower m (Some ev') = Some te).
Proof.
  intros Hdecl%declined_spec.
  assert (processItem queryLower member (Some ev) = None) as Hnone.
  { cbn [processItem]. by rewrite Hdecl. }
  split_and!; [done| |].
  - intros before after.
    rewrite !contribution_app, contribution_cons, Hnone. done.
  - intros fetches s te Hreach Hte.
    destruct (buffer_sound _ _ _ _ Hreach Hte) as (m & items & item & Hf & Hitem & Hproc).
    destruct (processItem_Some _ _ _ _ Hproc) as (ev' & -> & Hd & _).
    by exists m, items, ev'.
Qed.

(** C2, as the code has it: the summary of a private or confidential
    event is replaced by "(busy)" before the query filter, which sees
    only the sentinel.  Such an event is dropped by every non-empty
    lower-cased query that does not occur in "(busy)", whatever its
    title; it is kept, with the summary "(busy)", when the member has
    not declined it and the query is empty or occurs in "(busy)". *)
Theorem private_events_show_as_busy (queryLower member : string)
    (ev : calendar.Event) :
  calendar.Visibility ev = "private" \/ calendar.Visibility ev = "confidential" ->
  maskedSummary ev = "(busy)"
  /\ (forall te, processItem queryLower member (Some ev) = Some te ->
        Summary te = "(busy)")
  /\ (queryLower <> "" ->
      ~ (exists a b, "(busy)" = a +:+ queryLower +:+ b) ->
      processItem queryLower member (Some ev) = None)
  /\ (declined ev = false ->
      queryLower = "" \/ (exists a b, "(busy)" = a +:+ queryLower +:+ b) ->
      exists te, processItem queryLower member (Some ev) = Some te
                 /\ Summary te = "(busy)" /\ Who te = member
                 /\ ID te = calendar.Id ev).
Proof.
  intros Hvis.
  assert (maskedSummary ev = "(busy)") as Hmask.
  { unfold maskedSummary. by destruct Hvis as [-> | ->]. }
  assert (filteredOut queryLower "(busy)" =
          nonEmpty queryLower && negb (strings.Contains "(busy)" queryLower)) as Hfilter.
  { done. }
  split_and!; [done| | |].
  - intros te (ev' & [= <-] & _ & _ & _ & _ & -> & _)%processItem_Some. done.
  - intros Hne Hnot. cbn [processItem]. destruct (declined ev); [done|].
    rewrite Hmask, Hfilter.
    apply String.eqb_neq in Hne. unfold nonEmpty. rewrite Hne. cbn [negb andb].
    destruct (strings.Contains "(busy)" queryLower) eqn:Hc; [|done].
    by apply Contains_spec in Hc.
  - intros Hd Hq. rewrite processItem_kept.
    + eexists. split; [done|]. by rewrite Hmask.
    + done.
    + rewrite Hmask, Hfilter. destruct Hq as [->|Hsub]; [done|].
      apply Contains_spec in Hsub. rewrite Hsub. by rewrite andb_false_r.
Qed.

Lemma warnings_sound q fetches s x :
  reachable q fetches s -> x ∈ errors s ->
  exists m msg, (m, Err msg) ∈ fetches /\ x = warningOf m msg.
Proof.
  intros Hreach Hx.
  assert (x ∈ concat (fetchWarnings <$> fetches)) as Hin.
  { rewrite <- (reachable_errors _ _ _ Hreach). apply elem_of_app. by left. }
  apply elem_of_concat in Hin as (ws & Hx' & Hws).
  apply list_elem_of_fmap in Hws as ([m r] & -> & Hf).
  unfold fetchWarnings in Hx'. cbn [fst snd] in Hx'.
  destruct r as [items|msg]; [by apply elem_of_nil in Hx'|].
  apply list_elem_of_singleton in Hx' as ->. by exists m, msg.
Qed.

(** C7: a raw event without a start block gives a [teamEvent] with
    empty [Start] and [End] and the zero timestamp, which sorts before
    every event with a later timestamp.  A timestamp field that does
    not parse counts as an absent one: the clock string is empty and
    the sort key falls back to the date, or to the zero time.  The
    event is produced all the same, and the only warnings of a run are
    those of failed events-list calls. *)
Theorem missing_or_unparseable_times (queryLower member : string)
    (ev : calendar.Event) :
  (calendar.Start ev = None ->
   formatEventTime ev = ("", "") /\ parseEventStart ev = time.zero)
  /\ (calendar.Start ev = None ->
      declined ev = false ->
      filteredOut queryLower (maskedSummary ev) = false ->
      exists te,
        processItem queryLower member (Some ev) = Some te
        /\ Start te = "" /\ End te = "" /\ sortKey te = time.zero
        /\ forall other, time.Before time.zero (sortKey other) = true ->
             less te other = true /\ less other te = false)
  /\ (forall st,
        calendar.Start ev = Some st ->
        calendar.Date st = "" ->
        ParseRFC3339 (calendar.DateTime st) = None ->
        (formatEventTime ev).1 = "" /\ parseEventStart ev = time.zero)
  /\ (forall st en,
        calendar.Start ev = Some st ->
        calendar.Date st = "" ->
        calendar.End ev = Some en ->
        ParseRFC3339 (calendar.DateTime en) = None ->
        (formatEventTime ev).2 = "")
  /\ (forall st,
        calendar.Start ev = Some st ->
        calendar.DateTime st = "" \/ ParseRFC3339 (calendar.DateTime st) = None ->
        parseEventStart ev =
        default time.zero
          (if nonEmpty (calendar.Date st) then time.ParseDate (calendar.Date st)
           else None))
  /\ (forall st,
        calendar.Start ev = Some st ->
        calendar.DateTime st = "" \/ ParseRFC3339 (calendar.DateTime st) = None ->
        calendar.Date st = "" \/ time.ParseDate (calendar.Date st) = None ->
        parseEventStart ev = time.zero)
  /\ (declined ev = false ->
      filteredOut queryLower (maskedSummary ev) = false ->
      exists te, processItem queryLower member (Some ev) = Some te
                 /\ (Start te, End te) = formatEventTime ev
                 /\ sortKey te = parseEventStart ev)
  /\ (forall fetches s x,
        reachable queryLower fetches s -> x ∈ errors s ->
        exists m msg, (m, Err msg) ∈ fetches /\ x = warningOf m msg).
Proof.
  assert (forall st,
            calendar.Start ev = Some st ->
            calendar.DateTime st = "" \/ ParseRFC3339 (calendar.DateTime st) = None ->
            parseEventStart ev =
            default time.zero
              (if nonEmpty (calendar.Date st) then time.ParseDate (calendar.Date st)
               else None)) as Hfallback.
  { intros st Hst Hdt. unfold parseEventStart. rewrite Hst.
    assert ((if nonEmpty (calendar.DateTime st)
             then ParseRFC3339 (calendar.DateTime st) else None) = None) as ->.
    { destruct Hdt as [-> | ->]; [done|]. by destruct (nonEmpty _). }
    by destruct (if nonEmpty (calendar.Date st) then _ else _). }
  split_and!.
  - intros Hst. unfold formatEventTime, parseEventStart. by rewrite Hst.
  - intros Hst Hd Hf. rewrite processItem_kept by done.
    eexists. split; [done|].
    unfold formatEventTime, parseEventStart. rewrite Hst. cbn.
    split_and!; [done..|]. intros other Hlater. unfold less. cbn [sortKey].
    split; [done|]. unfold time.Before in *. lia.
  - intros st Hst Hdate Hparse. split.
    + unfold formatEventTime, clockOf. rewrite Hst, Hdate, Hparse. cbn.
      by destruct (nonEmpty _).
    + rewrite (Hfallback st); [|done|by right]. by rewrite Hdate.
  - intros st en Hst Hdate Hen Hparse.
    unfold formatEventTime, clockOf. rewrite Hst, Hdate, Hen, Hparse. cbn.
    by destruct (nonEmpty _).
  - exact Hfallback.
  - intros st Hst Hdt Hdate. rewrite (Hfallback st) by done.
    destruct Hdate as [-> | ->]; [done|]. by destruct (nonEmpty _).
  - intros Hd Hf. rewrite processItem_kept by done.
    eexists. split; [done|]. cbn. split; [|done]. by destruct (formatEventTime ev).
  - intros fetches s x. apply warnings_sound.
Qed.

(** C8: [Run] takes as members the identifiers of the memberships of
    type USER whose identifier contains an "@", in the order of the
    response; a nil membership and a membership without a member key
    give nothing.  When no membership is left, or when the group has
    none, [Run] prints a message on the error stream and returns [nil]. *)
Theorem memberEmails_are_the_user_addresses
    (memberships : list (option cloudidentity.Membership)) :
  (forall member,
     member ∈ memberEmails memberships <->
     exists m key,
       Some m ∈ memberships
       /\ cloudidentity.PreferredMemberKey m = Some key
       /\ cloudidentity.KeyId key = member
       /\ cloudidentity.Type_ m = "USER"
       /\ exists a b, member = a +:+ "@" +:+ b)
  /\ (forall ms1 ms2,
        memberEmails (ms1 ++ ms2) = memberEmails ms1 ++ memberEmails ms2)
  /\ memberEmails [None] = []
  /\ (forall m, cloudidentity.PreferredMemberKey m = None ->
        memberEmails [Some m] = [])
  /\ (forall m key,
        cloudidentity.PreferredMemberKey m = Some key ->
        (cloudidentity.Type_ m = "USER"
         /\ (exists a b, cloudidentity.KeyId key = a +:+ "@" +:+ b) ->
         memberEmails [Some m] = [cloudidentity.KeyId key])
        /\ (~ (cloudidentity.Type_ m = "USER"
               /\ exists a b, cloudidentity.KeyId key = a +:+ "@" +:+ b) ->
            memberEmails [Some m] = []))
  /\ (forall c account name out,
        requireAccount = Ok account ->
        TrimSpace (GroupEmail c) <> "" ->
        newCalendarService account = Ok () ->
        ResolveTimeRange = Ok () ->
        newCloudIdentityService account = Ok () ->
        groupsLookupDo (TrimSpace (GroupEmail c)) = Ok name ->
        membershipsListDo name = Ok memberships ->
        memberEmails memberships = [] ->
        Run c out ->
        out = Diagnostic ("No members in group " +:+ TrimSpace (GroupEmail c) +:+ newline)
        \/ out = Diagnostic ("No user members in group "
                             +:+ TrimSpace (GroupEmail c) +:+ newline)).
Proof.
  assert (forall m key,
            cloudidentity.PreferredMemberKey m = Some key ->
            (String.eqb (cloudidentity.Type_ m) "USER"
             && strings.Contains (cloudidentity.KeyId key) "@" = true)
            <-> (cloudidentity.Type_ m = "USER"
                 /\ exists a b, cloudidentity.KeyId key = a +:+ "@" +:+ b)) as Htest.
  { intros m key _. by rewrite andb_true_iff, String.eqb_eq, Contains_spec. }
  split_and!.
  - intros member. induction memberships as [|[m|] ms IH]; cbn [memberEmails].
    + split; [by intros ?%elem_of_nil|]. by intros (m & key & ?%elem_of_nil & _).
    + destruct (cloudidentity.PreferredMemberKey m) as [key|] eqn:Hkey.
      * destruct (String.eqb (cloudidentity.Type_ m) "USER"
                  && strings.Contains (cloudidentity.KeyId key) "@") eqn:Hq.
        -- rewrite elem_of_cons, IH. split.
           ++ intros [->|(m' & key' & Hin & Hrest)].
              ** apply (Htest m key Hkey) in Hq as [Hu Hat].
                 exists m, key. split; [apply list_elem_of_here|done].
              ** exists m', key'. split; [by apply list_elem_of_further|done].
           ++ intros (m' & key' & [[= ->]|Hin]%elem_of_cons & Hk & Hid & Hrest).
              ** left. rewrite Hkey in Hk. by injection Hk as <-.
              ** right. by exists m', key'.
        -- rewrite IH. split.
           ++ intros (m' & key' & Hin & Hrest).
              exists m', key'. split; [by apply list_elem_of_further|done].
           ++ intros (m' & key' & [[= ->]|Hin]%elem_of_cons & Hk & Hid & Hu & Hat).
              ** rewrite Hkey in Hk. injection Hk as <-.
                 assert (String.eqb (cloudidentity.Type_ m) "USER"
                         && strings.Contains (cloudidentity.KeyId key) "@" = true)
                   as Habs by (apply (Htest m key Hkey); by rewrite Hid).
                 congruence.
              ** by exists m', key'.
      * rewrite IH. split.
        -- intros (m' & key' & Hin & Hrest).
           exists m', key'. split; [by apply list_elem_of_further|done].
        -- intros (m' & key' & [[= ->]|Hin]%elem_of_cons & Hk & Hrest).
           ++ congruence.
           ++ by exists m', key'.
    + rewrite IH. split.
      * intros (m' & key' & Hin & Hrest).
        exists m', key'. split; [by apply list_elem_of_further|done].
      * intros (m' & key' & [?|Hin]%elem_of_cons & Hrest); [done|].
        by exists m', key'.
  - intros ms1 ms2. induction ms1 as [|[m|] ms1 IH]; cbn [memberEmails app]; [done| |done].
    destruct (cloudidentity.PreferredMemberKey m); [|done].
    destruct (_ && _); [|done]. by rewrite IH.
  - done.
  - intros m Hkey. cbn [memberEmails]. by rewrite Hkey.
  - intros m key Hkey. cbn [memberEmails]. rewrite Hkey. split.
    + intros Hq. apply (Htest m key Hkey) in Hq. by rewrite Hq.
    + intros Hq. destruct (_ && _) eqn:Hb; [|done].
      by apply (Htest m key Hkey) in Hb.
  - intros c account name out Hacc Hgroup Hcal Htr Hcloud Hlook Hlist Hnone Hrun.
    unfold Run in Hrun. rewrite Hacc in Hrun.
    apply String.eqb_neq in Hgroup. rewrite Hgroup, Hcal, Htr, Hcloud in Hrun.
    unfold lookupGroupByEmail in Hrun. rewrite Hlook, Hlist, Hnone in Hrun.
    destruct (Nat.eqb (length memberships) 0); [by left|by right].
Qed.

(** ** The insertion sort of the examples meets what is asked of [sort.Slice] *)

Lemma insertByStart_perm x l : insertByStart x l ≡ₚ x :: l.
Proof.
  induction l as [|y l IH]; [done|]. cbn [insertByStart].
  destruct (less y x); [|done]. rewrite IH. apply Permutation_swap.
Qed.

Lemma insertionSort_perm l : insertionSort l ≡ₚ l.
Proof.
  induction l as [|x l IH]; [done|].
  cbn [insertionSort foldr]. fold (insertionSort l).
  by rewrite insertByStart_perm, IH.
Qed.

Lemma insertByStart_sorted x l :
  sortedByStart l -> sortedByStart (insertByStart x l).
Proof.
  unfold sortedByStart. induction 1 as [|y l Hs IH Hall]; cbn [insertByStart].
  - repeat constructor.
  - destruct (less y x) eqn:Hyx.
    + constructor; [done|]. rewrite insertByStart_perm. constructor; [|done].
      unfold less, time.Before in *. lia.
    + constructor; [by constructor|]. constructor; [done|].
      eapply Forall_impl; [exact Hall|]. intros b Hb.
      unfold less, time.Before in *. lia.
Qed.

Lemma insertionSort_sorted l : sortedByStart (insertionSort l).
Proof.
  induction l as [|x l IH]; [constructor|].
  cbn [insertionSort foldr]. by apply insertByStart_sorted.
Qed.

Lemma insertionSort_sorted_id l : sortedByStart l -> insertionSort l = l.
Proof.
  unfold sortedByStart. induction 1 as [|x l Hs IH Hall]; [done|].
  cbn [insertionSort foldr]. fold (insertionSort l). rewrite IH.
  destruct l as [|y l]; [done|]. cbn [insertByStart].
  apply Forall_cons in Hall as [-> _]. done.
Qed.

(** The first workers, up to the capacity of [sem], can all have their
    call in flight at once. *)
Lemma first_workers_fetch q
    (busy rest : list (string * result (list (option calendar.Event)))) :
  length busy <= semCap ->
  reachable q (busy ++ rest)
    {| workers := ((fun f => goto (spawn f) Fetching) <$> busy) ++ (spawn <$> rest);
       events := []; errors := []; sem := length busy |}.
Proof.
  revert rest. induction busy as [|f busy IH] using rev_ind; intros rest Hlen.
  - apply rtc_refl.
  - rewrite length_app in Hlen. cbn [length] in Hlen.
    rewrite <- (assoc_L (++)). cbn [app]. eapply rtc_r.
    + apply (IH (f :: rest)). lia.
    + rewrite fmap_cons, fmap_app, <- (assoc_L (++)), length_app.
      cbn [fmap list_fmap app length]. rewrite Nat.add_1_r.
      apply step_acquire; [done|lia].
Qed.

(** * More properties of the code *)

(** ** [truncate] and the table of [runEvents] *)

Lemma string_app_length (a b : string) :
  String.length (a +:+ b) = String.length a + String.length b.
Proof.
  induction a as [|c a IH]; [done|].
  change (S (String.length (a +:+ b)) = S (String.length a) + String.length b).
  by rewrite IH.
Qed.

Lemma firstBytes_length n s :
  String.length (firstBytes n s) = Nat.min n (String.length s).
Proof.
  revert s. induction n as [|n IH]; intros [|c s]; cbn [firstBytes String.length];
    [done..|]. by rewrite IH.
Qed.

Lemma firstBytes_all n s : String.length s <= n -> firstBytes n s = s.
Proof.
  revert s. induction n as [|n IH]; intros [|c s]; cbn [firstBytes String.length];
    intros Hlen; [done|lia|done|]. rewrite IH; [done|lia].
Qed.

Lemma sliceTo_Some s hi :
  (0 <= hi <= Z.of_nat (String.length s))%Z ->
  sliceTo s hi = Some (firstBytes (Z.to_nat hi) s).
Proof.
  intros [Hlo Hhi]. unfold sliceTo.
  destruct (hi <? 0)%Z eqn:H1; [lia|].
  destruct (Z.of_nat (String.length s) <? hi)%Z eqn:H2; [lia|done].
Qed.

Lemma truncate_short s maxLen :
  (Z.of_nat (String.length s) <= maxLen)%Z -> truncate s maxLen = Some s.
Proof.
  intros Hlen. unfold truncate.
  destruct (Z.of_nat (String.length s) <=? maxLen)%Z eqn:H; [done|lia].
Qed.

Lemma truncate_cut s maxLen :
  (3 < maxLen < Z.of_nat (String.length s))%Z ->
  truncate s maxLen = Some (firstBytes (Z.to_nat (maxLen - 3)) s +:+ "...").
Proof.
  intros [Hlo Hhi]. unfold truncate.
  destruct (Z.of_nat (String.length s) <=? maxLen)%Z eqn:H1; [lia|].
  destruct (maxLen <=? 3)%Z eqn:H2; [lia|].
  rewrite sliceTo_Some by lia. done.
Qed.

Lemma truncate_narrow s maxLen :
  (0 <= maxLen <= 3)%Z -> (maxLen < Z.of_nat (String.length s))%Z ->
  truncate s maxLen = Some (firstBytes (Z.to_nat maxLen) s).
Proof.
  intros [Hlo Hhi] Hlen. unfold truncate.
  destruct (Z.of_nat (String.length s) <=? maxLen)%Z eqn:H1; [lia|].
  destruct (maxLen <=? 3)%Z eqn:H2; [|lia].
  by rewrite sliceTo_Some by lia.
Qed.

(** X1: for a width that is not negative [truncate] returns the string
    itself when it has at most [maxLen] bytes, and otherwise exactly
    [maxLen] bytes: the first [maxLen - 3] bytes and "...", or, for a
    width of at most 3, the first [maxLen] bytes without the dots;
    truncating the result again changes nothing.  For a negative width
    it panics, whatever the string. *)
Theorem truncate_fits_the_width (s : string) (maxLen : Z) :
  ((0 <= maxLen)%Z ->
   exists r,
     truncate s maxLen = Some r
     /\ Z.of_nat (String.length r) = Z.min (Z.of_nat (String.length s)) maxLen
     /\ ((Z.of_nat (String.length s) <= maxLen)%Z -> r = s)
     /\ ((3 < maxLen < Z.of_nat (String.length s))%Z ->
         r = firstBytes (Z.to_nat (maxLen - 3)) s +:+ "...")
     /\ ((maxLen <= 3)%Z -> (maxLen < Z.of_nat (String.length s))%Z ->
         r = firstBytes (Z.to_nat maxLen) s)
     /\ truncate r maxLen = Some r)
  /\ ((maxLen < 0)%Z -> truncate s maxLen = None).
Proof.
  split.
  - intros Hpos.
    destruct (decide (Z.of_nat (String.length s) <= maxLen)%Z) as [Hshort|Hlong].
    + exists s. rewrite truncate_short by done.
      split_and!; [done|lia|done|lia|lia|done].
    + destruct (decide (maxLen <= 3)%Z) as [Hnarrow|Hwide].
      * exists (firstBytes (Z.to_nat maxLen) s).
        rewrite truncate_narrow by lia.
        assert (String.length (firstBytes (Z.to_nat maxLen) s) = Z.to_nat maxLen) as Hlen
          by (rewrite firstBytes_length; lia).
        split_and!; [done|lia|lia|lia|done|].
        apply truncate_short. lia.
      * exists (firstBytes (Z.to_nat (maxLen - 3)) s +:+ "...").
        rewrite truncate_cut by lia.
        assert (String.length (firstBytes (Z.to_nat (maxLen - 3)) s +:+ "...")
                = Z.to_nat maxLen) as Hlen.
        { rewrite string_app_length, firstBytes_length. cbn [String.length]. lia. }
        split_and!; [done|lia|lia|done|lia|].
        apply truncate_short. lia.
  - intros Hneg. unfold truncate, sliceTo.
    destruct (Z.leb_spec (Z.of_nat (String.length s)) maxLen) as [H1|H1]; [lia|].
    destruct (Z.leb_spec maxLen 3) as [H2|H2]; [|lia].
    destruct (Z.ltb_spec maxLen 0) as [H3|H3]; [done|lia].
Qed.

Lemma truncate_fits_width_aux (s : string) :
  exists cell,
    truncate s 40 = Some cell
    /\ String.length cell <= 40
    /\ (String.length s <= 40 -> cell = s)
    /\ (40 < String.length s -> cell = firstBytes 37 s +:+ "...").
Proof.
  destruct (decide (String.length s <= 40)) as [Hshort|Hlong].
  - exists s. rewrite truncate_short by lia. split_and!; [done|done|done|lia].
  - exists (firstBytes 37 s +:+ "..."). rewrite truncate_cut by lia.
    split_and!; [done| |lia|done].
    rewrite string_app_length, firstBytes_length. cbn [String.length]. lia.
Qed.

(** X2: [runEvents] can always write its output: in JSON mode the
    events as they are, also when there are none; in text mode the
    message "No events found" when there are none and otherwise one
    row per event, in order, whose summary cell is made of at most 40
    bytes of the summary: all of it, or its first 37 bytes and "...". *)
Theorem renderEvents_rows (isJSON : bool) (evs : list teamEvent) :
  exists out,
    renderEvents isJSON evs = Some out
    /\ (isJSON = true -> out = EventsJSON evs)
    /\ (isJSON = false -> evs = [] -> out = NoEventsFound)
    /\ (isJSON = false -> evs <> [] ->
        exists rows,
          out = EventsTable rows
          /\ length rows = length evs
          /\ forall i ev, evs !! i = Some ev ->
               exists cell,
                 rows !! i = Some (sanitizeTab (Who ev), sanitizeTab (Start ev),
                                   sanitizeTab (End ev), sanitizeTab cell)
                 /\ String.length cell <= 40
                 /\ (String.length (Summary ev) <= 40 -> cell = Summary ev)
                 /\ (40 < String.length (Summary ev) ->
                     cell = firstBytes 37 (Summary ev) +:+ "...")).
Proof.
  assert (forall ev, exists cell,
            eventRow ev = Some (sanitizeTab (Who ev), sanitizeTab (Start ev),
                                sanitizeTab (End ev), sanitizeTab cell)
            /\ String.length cell <= 40
            /\ (String.length (Summary ev) <= 40 -> cell = Summary ev)
            /\ (40 < String.length (Summary ev) ->
                cell = firstBytes 37 (Summary ev) +:+ "...")) as Hrow.
  { intros ev. unfold eventRow.
    destruct (truncate_fits_width_aux (Summary ev)) as (cell & -> & ? & ? & ?).
    by exists cell. }
  destruct isJSON.
  { exists (EventsJSON evs). by split_and!. }
  unfold renderEvents. destruct evs as [|ev0 evs0].
  { exists NoEventsFound. by split_and!. }
  set (evs := ev0 :: evs0).
  assert (is_Some (mapM eventRow evs)) as [rows Hrows].
  { apply mapM_is_Some, Forall_forall. intros ev _.
    destruct (Hrow ev) as (cell & Hcell & _).
    unfold compose. rewrite Hcell. by eexists. }
  exists (EventsTable rows). cbn [length Nat.eqb]. fold evs. rewrite Hrows.
  split_and!; [done|done|done|]. intros _ _. exists rows.
  split; [done|]. split; [symmetry; by eapply length_mapM|].
  intros i ev Hi. apply mapM_Some_1 in Hrows.
  destruct (Forall2_lookup_l _ _ _ _ _ Hrows Hi) as (row & Hrow_i & Hmade).
  destruct (Hrow ev) as (cell & Hcell & Hfacts). exists cell.
  split; [|done]. rewrite Hrow_i. f_equal. congruence.
Qed.

(** ** [getMemberRole] *)

Lemma hasRoleNamed_present name (rs : list MembershipRole) :
  hasRoleNamed name (Some <$> rs) = Some (bool_decide (name ∈ Name <$> rs)).
Proof.
  induction rs as [|r rs IH]; [done|].
  rewrite !fmap_cons. cbn [hasRoleNamed]. rewrite IH.
  destruct (String.eqb_spec (Name r) name) as [Heq|Hne].
  - rewrite bool_decide_eq_true_2; [done|]. rewrite Heq. apply list_elem_of_here.
  - f_equal. apply bool_decide_ext. rewrite elem_of_cons. split; [by right|].
    by intros [Heq|?]; [destruct Hne|].
Qed.

Lemma hasRoleNamed_nil name (roles : list (option MembershipRole)) :
  hasRoleNamed name roles = None <->
  exists pre post,
    roles = (Some <$> pre) ++ None :: post /\ name ∉ Name <$> pre.
Proof.
  induction roles as [|[r|] roles IH]; cbn [hasRoleNamed].
  - split; [done|]. intros (pre & post & Heq & _). by destruct pre.
  - destruct (String.eqb_spec (Name r) name) as [Heq|Hne].
    + split; [done|]. intros ([|r' pre] & post & Hroles & Hno); [done|].
      rewrite fmap_cons in Hroles. injection Hroles as -> _.
      destruct Hno. rewrite fmap_cons, Heq. apply list_elem_of_here.
    + rewrite IH. split.
      * intros (pre & post & -> & Hno). exists (r :: pre), post.
        split; [done|]. rewrite fmap_cons, elem_of_cons.
        by intros [Heq|?]; [destruct Hne|].
      * intros ([|r' pre] & post & Hroles & Hno); [done|].
        rewrite fmap_cons in Hroles. injection Hroles as -> ->.
        exists pre, post. split; [done|]. intros Hin. destruct Hno.
        rewrite fmap_cons. by apply list_elem_of_further.
  - split; [|done]. intros _. exists [], roles.
    split; [done|apply not_elem_of_nil].
Qed.

(** X3: [getMemberRole] returns the highest of the roles that the
    membership has: for roles that are all present it is "OWNER"
    exactly when one is named OWNER, "MANAGER" exactly when none is
    named OWNER and one is named MANAGER, and "MEMBER" otherwise, also
    for no role at all and for unknown names, whatever the order of
    the roles.  The function panics exactly when a nil entry comes
    before every role named OWNER. *)
Theorem getMemberRole_is_the_highest :
  (forall rs : list MembershipRole,
     getMemberRole (Some <$> rs) =
     Some (if bool_decide ("OWNER" ∈ Name <$> rs) then "OWNER"
           else if bool_decide ("MANAGER" ∈ Name <$> rs) then "MANAGER"
           else "MEMBER"))
  /\ (forall rs rs' : list MembershipRole,
        rs ≡ₚ rs' -> getMemberRole (Some <$> rs') = getMemberRole (Some <$> rs))
  /\ (forall roles : list (option MembershipRole),
        getMemberRole roles = None <->
        exists pre post,
          roles = (Some <$> pre) ++ None :: post /\ "OWNER" ∉ Name <$> pre)
  /\ (forall (pre : list MembershipRole) r post,
        Name r = "OWNER" ->
        getMemberRole ((Some <$> pre) ++ Some r :: post) = Some "OWNER").
Proof.
  assert (forall rs : list MembershipRole,
     getMemberRole (Some <$> rs) =
     Some (if bool_decide ("OWNER" ∈ Name <$> rs) then "OWNER"
           else if bool_decide ("MANAGER" ∈ Name <$> rs) then "MANAGER"
           else "MEMBER")) as Hpresent.
  { intros [|r rs].
    - cbn. rewrite !bool_decide_eq_false_2; [done|apply not_elem_of_nil..].
    - unfold getMemberRole. rewrite !hasRoleNamed_present.
      rewrite fmap_cons. cbn [length Nat.eqb].
      destruct (bool_decide ("OWNER" ∈ Name <$> r :: rs)); [done|].
      by destruct (bool_decide ("MANAGER" ∈ Name <$> r :: rs)). }
  split_and!.
  - exact Hpresent.
  - intros rs rs' Hperm. rewrite !Hpresent.
    rewrite (bool_decide_ext ("OWNER" ∈ Name <$> rs') ("OWNER" ∈ Name <$> rs))
      by (by rewrite Hperm).
    by rewrite (bool_decide_ext ("MANAGER" ∈ Name <$> rs') ("MANAGER" ∈ Name <$> rs))
      by (by rewrite Hperm).
  - intros roles. rewrite <- hasRoleNamed_nil. unfold getMemberRole.
    destruct roles as [|o roles]; [done|]. cbn [length Nat.eqb].
    destruct (hasRoleNamed "OWNER" (o :: roles)) as [[|]|] eqn:Howner; [done| |done].
    destruct (hasRoleNamed "MANAGER" (o :: roles)) as [[|]|] eqn:Hmanager; [done|done|].
    exfalso. apply hasRoleNamed_nil in Hmanager as (pre & post & Heq & _).
    assert (hasRoleNamed "OWNER" (o :: roles) <> None) as Hno by (by rewrite Howner).
    rewrite Heq in Howner. clear Heq Hno.
    induction pre as [|r pre IH]; [done|].
    rewrite fmap_cons in Howner. cbn [app hasRoleNamed] in Howner.
    destruct (String.eqb (Name r) "OWNER"); [done|]. by apply IH.
  - intros pre r post Hname.
    assert (hasRoleNamed "OWNER" ((Some <$> pre) ++ Some r :: post) = Some true) as Howner.
    { induction pre as [|r' pre IH].
      - cbn [fmap list_fmap app hasRoleNamed]. by rewrite Hname.
      - rewrite fmap_cons. cbn [app hasRoleNamed].
        by destruct (String.eqb (Name r') "OWNER"). }
    unfold getMemberRole. rewrite Howner.
    by destruct pre.
Qed.

(** ** More of [dedupeTeamEvents] *)

Lemma filter_keeps_all {A} (P : A -> Prop) `{forall x, Decision (P x)} (l : list A) :
  length (filter P l) = length l -> Forall P l.
Proof.
  induction l as [|x l IH]; [constructor|].
  destruct (decide (P x)) as [HP|HP].
  - rewrite filter_cons_True by done. cbn [length]. intros Hlen.
    constructor; [done|]. apply IH. lia.
  - rewrite filter_cons_False by done. cbn [length]. intros Hlen.
    pose proof (length_filter P l). lia.
Qed.

Lemma firstSeen_length ids : length (firstSeen ids) <= length ids.
Proof.
  induction ids as [|i ids IH]; [done|]. cbn [firstSeen length].
  pose proof (length_filter (fun j => j <> i) (firstSeen ids)). lia.
Qed.

Lemma firstSeen_full_NoDup ids :
  length (firstSeen ids) = length ids -> NoDup ids.
Proof.
  induction ids as [|i ids IH]; [intros _; apply NoDup_nil_2|].
  cbn [firstSeen length]. intros Hlen.
  pose proof (length_filter (fun j => j <> i) (firstSeen ids)) as Hf.
  pose proof (firstSeen_length ids) as Hs.
  apply NoDup_cons. split; [|apply IH; lia].
  assert (Forall (fun j => j <> i) (firstSeen ids)) as Hall.
  { apply (filter_keeps_all (fun j => j <> i)). lia. }
  rewrite Forall_forall in Hall. intros Hin.
  apply (Hall i); [|done]. by apply elem_of_firstSeen.
Qed.

(** X4: [dedupeTeamEvents] never returns more entries than it is
    given; it returns its input unchanged exactly when no id occurs
    twice, and this is also the only case in which no entry is
    dropped. *)
Theorem dedupeTeamEvents_drops_only_repeats (l : list teamEvent) :
  exists out,
    dedupeTeamEvents l = Some out
    /\ length out <= length l
    /\ (out = l <-> NoDup (ID <$> l))
    /\ (length out = length l <-> NoDup (ID <$> l)).
Proof.
  exists (mergeById l). split; [apply dedupeTeamEvents_mergeById|].
  assert (length (mergeById l) = length (firstSeen (ID <$> l))) as Hlen
    by (by rewrite <- mergeById_ids, length_fmap).
  pose proof (firstSeen_length (ID <$> l)) as Hle. rewrite length_fmap in Hle.
  split_and!.
  - lia.
  - split.
    + intros Heq. rewrite <- Heq at 1. apply mergeById_NoDup.
    + apply mergeById_NoDup_id.
  - split.
    + intros Heq. apply firstSeen_full_NoDup. rewrite length_fmap. lia.
    + intros Hnd. by rewrite mergeById_NoDup_id.
Qed.

(** X5: deduplicating in two batches is deduplicating at once: the
    events that come later can be merged into the deduplicated list of
    the earlier ones. *)
Theorem dedupeTeamEvents_in_batches (l1 l2 : list teamEvent) :
  exists out1 out,
    dedupeTeamEvents l1 = Some out1
    /\ dedupeTeamEvents (l1 ++ l2) = Some out
    /\ dedupeTeamEvents (out1 ++ l2) = Some out
    /\ ID <$> out = firstSeen (ID <$> out1 ++ l2).
Proof.
  exists (mergeById l1), (mergeById (l1 ++ l2)).
  rewrite !dedupeTeamEvents_mergeById.
  assert (mergeById (mergeById l1 ++ l2) = mergeById (l1 ++ l2)) as Heq.
  { unfold mergeById at 1 3. rewrite !foldl_app. fold (mergeById l1).
    fold (mergeById (mergeById l1)).
    by rewrite (mergeById_NoDup_id (mergeById l1)) by apply mergeById_NoDup. }
  split_and!; [done|done|by rewrite Heq|].
  by rewrite <- Heq, mergeById_ids.
Qed.

(** ** The report of [runEvents], whatever the schedule *)

Lemma elem_of_fetchEvents q fetches e :
  e ∈ concat (fetchEvents q <$> fetches) <->
  exists m items item,
    (m, Ok items) ∈ fetches /\ item ∈ items /\ processItem q m item = Some e.
Proof.
  rewrite elem_of_concat. split.
  - intros (evs & He & Hevs).
    apply list_elem_of_fmap in Hevs as ([m r] & -> & Hf).
    unfold fetchEvents in He. cbn [fst snd] in He.
    destruct r as [items|msg]; [|by apply elem_of_nil in He].
    apply list_elem_of_omap in He as (item & Hitem & Hproc).
    by exists m, items, item.
  - intros (m & items & item & Hf & Hitem & Hproc).
    exists (fetchEvents q (m, Ok items)). split.
    + unfold fetchEvents, contribution. cbn [fst snd].
      apply list_elem_of_omap. by exists item.
    + apply list_elem_of_fmap. by exists (m, Ok items).
Qed.

Lemma elem_of_fetchWarnings fetches x :
  x ∈ concat (fetchWarnings <$> fetches) <->
  exists m msg, (m, Err msg) ∈ fetches /\ x = warningOf m msg.
Proof.
  rewrite elem_of_concat. split.
  - intros (ws & Hx & Hws).
    apply list_elem_of_fmap in Hws as ([m r] & -> & Hf).
    unfold fetchWarnings in Hx. cbn [fst snd] in Hx.
    destruct r as [items|msg]; [by apply elem_of_nil in Hx|].
    apply list_elem_of_singleton in Hx. by exists m, msg.
  - intros (m & msg & Hf & ->). exists [warningOf m msg]. split.
    + apply list_elem_of_here.
    + apply list_elem_of_fmap. by exists (m, Err msg).
Qed.

Lemma length_fetchWarnings fetches :
  length (concat (fetchWarnings <$> fetches))
  = length (filter (fun f => failed f = true) fetches).
Proof.
  induction fetches as [|[m [items|msg]] fetches IH]; [done| |].
  - rewrite fmap_cons, filter_cons_False by done. exact IH.
  - rewrite fmap_cons, filter_cons_True by done.
    cbn [concat fetchWarnings fst snd app length]. by rewrite IH.
Qed.

Lemma fetchEvents_failed q fetches :
  Forall (fun f => failed f = true) fetches ->
  concat (fetchEvents q <$> fetches) = [].
Proof.
  induction 1 as [|[m [items|msg]] fetches Hf _ IH]; [done|done|].
  by rewrite fmap_cons.
Qed.

Lemma omap_length_le {A B} (f : A -> option B) (l : list A) :
  length (omap f l) <= length l.
Proof.
  induction l as [|x l IH]; [done|]. cbn [omap list_omap].
  destruct (f x); cbn [length]; lia.
Qed.

Lemma length_fetchEvents q fetches :
  length (concat (fetchEvents q <$> fetches))
  <= length (concat (fetchItems <$> fetches)).
Proof.
  induction fetches as [|[m [items|msg]] fetches IH]; [done| |].
  - rewrite !fmap_cons. cbn [concat]. rewrite !length_app.
    unfold fetchEvents at 1, fetchItems at 1, contribution. cbn [fst snd].
    pose proof (omap_length_le (processItem q m) items). lia.
  - rewrite !fmap_cons. exact IH.
Qed.

Lemma mergeById_length l : length (mergeById l) <= length l.
Proof.
  rewrite <- (length_fmap ID (mergeById l)), mergeById_ids.
  rewrite <- (length_fmap ID l). apply firstSeen_length.
Qed.

Lemma mergeById_ids_perm l l' :
  l ≡ₚ l' -> ID <$> mergeById l ≡ₚ ID <$> mergeById l'.
Proof.
  intros Hperm. apply NoDup_Permutation; [apply mergeById_NoDup..|].
  intros i. rewrite !mergeById_same_ids. by rewrite Hperm.
Qed.

(** X6: whatever the schedule of the workers, [runEvents] prints one
    warning for each member whose call failed, each made of the
    member's address and the message of the error, and nothing else;
    there is no warning exactly when no call failed, and when every
    call fails the command still ends normally, with no event. *)
Theorem runEvents_warns_of_every_failure (c : CalendarTeamCmd)
    (fetches : list (string * result (list (option calendar.Event))))
    (r : report) :
  runEvents c fetches r ->
  warnings r ≡ₚ concat (fetchWarnings <$> fetches)
  /\ length (warnings r) = length (filter (fun f => failed f = true) fetches)
  /\ (forall m msg, (m, Err msg) ∈ fetches -> warningOf m msg ∈ warnings r)
  /\ (forall x, x ∈ warnings r ->
        exists m msg, (m, Err msg) ∈ fetches /\ x = warningOf m msg)
  /\ (warnings r = [] <-> Forall (fun f => failed f = false) fetches)
  /\ (Forall (fun f => failed f = true) fetches ->
      shown r = [] /\ length (warnings r) = length fetches).
Proof using sortSlice_perm.
  intros Hrun.
  destruct (runEvents_buffers _ _ _ Hrun) as (Hw & buffer & Hbuf & Hfinal).
  split_and!.
  - exact Hw.
  - by rewrite Hw, length_fetchWarnings.
  - intros m msg Hf. rewrite Hw. apply elem_of_fetchWarnings. by exists m, msg.
  - intros x Hx. rewrite Hw in Hx. by apply elem_of_fetchWarnings.
  - split.
    + intros Hnil. apply Forall_forall. intros [m [items|msg]] Hf; [done|].
      assert (warningOf m msg ∈ warnings r) as Hin.
      { rewrite Hw. apply elem_of_fetchWarnings. by exists m, msg. }
      rewrite Hnil in Hin. by apply elem_of_nil in Hin.
    + intros Hall. apply Permutation_nil_r. rewrite Hw.
      rewrite concat_fetchWarnings_ok; [done|].
      eapply Forall_impl; [exact Hall|].
      intros [m [items|msg]] Hf; [by exists items|done].
  - intros Hall. rewrite (fetchEvents_failed _ _ Hall) in Hbuf.
    apply Permutation_nil_r in Hbuf. subst buffer.
    rewrite finalEvents_total in Hfinal. injection Hfinal as Hshown.
    assert (sortSlice [] = []) as Hsort
      by (apply Permutation_nil_r, sortSlice_perm).
    split.
    + rewrite <- Hshown, Hsort. by destruct (NoDedup c).
    + rewrite Hw, length_fetchWarnings.
      f_equal. clear -Hall. induction Hall as [|f fetches Hf _ IH]; [done|].
      by rewrite filter_cons_True, IH by done.
Qed.

Lemma runEvents_ids c fetches r :
  runEvents c fetches r ->
  forall i,
    i ∈ ID <$> shown r <->
    exists m items ev,
      (m, Ok items) ∈ fetches /\ Some ev ∈ items
      /\ declined ev = false
      /\ filteredOut (strings.ToLower unicodeLower (Query c)) (maskedSummary ev) = false
      /\ calendar.Id ev = i.
Proof using sortSlice_perm.
  intros Hrun i.
  destruct (runEvents_buffers _ _ _ Hrun) as (_ & buffer & Hbuf & Hfinal).
  rewrite finalEvents_total in Hfinal. injection Hfinal as Hshown.
  assert (i ∈ ID <$> shown r <-> i ∈ ID <$> sortSlice buffer) as ->.
  { rewrite <- Hshown. destruct (NoDedup c); [done|]. apply mergeById_same_ids. }
  rewrite sortSlice_perm, Hbuf. rewrite list_elem_of_fmap. split.
  - intros (e & -> & (m & items & item & Hf & Hitem & Hproc)%elem_of_fetchEvents).
    apply processItem_Some in Hproc
      as (ev & -> & Hdecl & Hkeep & _ & Hid & _).
    by exists m, items, ev.
  - intros (m & items & ev & Hf & Hitem & Hdecl & Hkeep & <-).
    eexists. split; [|apply elem_of_fetchEvents; exists m, items, (Some ev);
                       split_and!; [done|done|by apply processItem_kept]].
    done.
Qed.

(** The [Who] of a shown entry is made of the [Who] of entries of the
    buffer. *)
Lemma finalEvents_who c buffer out e :
  finalEvents c buffer = Some out -> e ∈ out ->
  exists f rest,
    Who e = strings.Join (Who <$> f :: rest) ", "
    /\ (forall x, x ∈ f :: rest -> x ∈ buffer /\ ID x = ID e)
    /\ (NoDedup c = true -> e ∈ buffer).
Proof using sortSlice_perm.
  rewrite finalEvents_total. intros [= <-] He. destruct (NoDedup c).
  - rewrite sortSlice_perm in He. exists e, []. split_and!; [done| |done].
    by intros x ->%list_elem_of_singleton.
  - apply mergeById_canonical in He as (f & rest & Hocc & Heq).
    exists f, rest. split_and!; [by rewrite Heq| |done].
    intros x Hx. rewrite <- Hocc in Hx. unfold occurrences in Hx.
    apply list_elem_of_filter in Hx as [Hid Hx].
    by rewrite sortSlice_perm in Hx.
Qed.

(** X7: [runEvents] shows an identifier exactly when some member's
    calendar returned an event with it that the member has not
    declined and that passes the query; with [--no-dedup] the rows are
    exactly the kept events of all the calendars, one row for each, and
    without it no identifier is shown twice.  Every row carries the
    identifier, the status, the times and the masked title of an event
    that some calendar returned. *)
Theorem runEvents_shows_every_kept_event (c : CalendarTeamCmd)
    (fetches : list (string * result (list (option calendar.Event))))
    (r : report) :
  runEvents c fetches r ->
  (forall i,
     i ∈ ID <$> shown r <->
     exists m items ev,
       (m, Ok items) ∈ fetches /\ Some ev ∈ items
       /\ declined ev = false
       /\ filteredOut (strings.ToLower unicodeLower (Query c)) (maskedSummary ev) = false
       /\ calendar.Id ev = i)
  /\ (NoDedup c = true ->
      shown r ≡ₚ concat (fetchEvents (strings.ToLower unicodeLower (Query c)) <$> fetches))
  /\ (NoDedup c = false -> NoDup (ID <$> shown r))
  /\ length (shown r) <= length (concat (fetchItems <$> fetches))
  /\ (forall e, e ∈ shown r ->
        exists m items ev,
          (m, Ok items) ∈ fetches /\ Some ev ∈ items
          /\ declined ev = false
          /\ ID e = calendar.Id ev /\ Summary e = maskedSummary ev
          /\ Status e = calendar.Status ev
          /\ (Start e, End e) = formatEventTime ev
          /\ sortKey e = parseEventStart ev).
Proof using sortSlice_perm.
  intros Hrun. set (q := strings.ToLower unicodeLower (Query c)).
  destruct (runEvents_buffers _ _ _ Hrun) as (_ & buffer & Hbuf & Hfinal).
  fold q in Hbuf. rewrite finalEvents_total in Hfinal. injection Hfinal as Hshown.
  assert (forall e, e ∈ shown r ->
            exists who f, f ∈ sortSlice buffer /\ e = withWho who f) as Hfrom.
  { intros e He. rewrite <- Hshown in He. destruct (NoDedup c).
    - exists (Who e), e. split; [done|]. by destruct e.
    - apply mergeById_canonical in He as (f & rest & Hocc & Heq).
      exists (strings.Join (Who <$> f :: rest) ", "), f. split; [|done].
      assert (f ∈ occurrences (ID e) (sortSlice buffer)) as Hf
        by (rewrite Hocc; apply list_elem_of_here).
      unfold occurrences in Hf. by apply list_elem_of_filter in Hf as [_ Hf]. }
  split_and!.
  - by apply runEvents_ids.
  - intros Hno. rewrite <- Hshown, Hno. by rewrite sortSlice_perm.
  - intros Hno. rewrite <- Hshown, Hno. apply mergeById_NoDup.
  - assert (length (shown r) <= length (sortSlice buffer)) as Hle.
    { rewrite <- Hshown. destruct (NoDedup c); [done|apply mergeById_length]. }
    rewrite sortSlice_perm, Hbuf in Hle.
    pose proof (length_fetchEvents q fetches). lia.
  - intros e (who & f & Hf & ->)%Hfrom.
    rewrite sortSlice_perm, Hbuf in Hf.
    apply elem_of_fetchEvents in Hf as (m & items & item & Hfetch & Hitem & Hproc).
    apply processItem_Some in Hproc
      as (ev & -> & Hdecl & _ & _ & Hid & Hsum & Hst & Htimes & Hkey).
    by exists m, items, ev.
Qed.

(** X8: two runs of [runEvents] over the same answers of the server
    can differ by the schedule of the workers only: they print the
    same warnings up to their order and show the same identifiers in
    the same number of rows; with [--no-dedup] they show the same rows
    up to their order, and exactly the same table when no two rows
    start at the same instant. *)
Theorem runEvents_report_up_to_schedule (c : CalendarTeamCmd)
    (fetches : list (string * result (list (option calendar.Event))))
    (r r' : report) :
  runEvents c fetches r ->
  runEvents c fetches r' ->
  warnings r ≡ₚ warnings r'
  /\ length (shown r) = length (shown r')
  /\ (forall i, i ∈ ID <$> shown r <-> i ∈ ID <$> shown r')
  /\ (NoDedup c = true -> shown r ≡ₚ shown r')
  /\ (NoDedup c = true -> NoDup (sortKey <$> shown r) -> shown r = shown r').
Proof using sortSlice_perm sortSlice_sorted.
  intros Hrun Hrun'.
  destruct (runEvents_buffers _ _ _ Hrun) as (Hw & buffer & Hbuf & Hfinal).
  destruct (runEvents_buffers _ _ _ Hrun') as (Hw' & buffer' & Hbuf' & Hfinal').
  rewrite finalEvents_total in Hfinal. injection Hfinal as Hshown.
  rewrite finalEvents_total in Hfinal'. injection Hfinal' as Hshown'.
  assert (sortSlice buffer ≡ₚ sortSlice buffer') as Hperm
    by (by rewrite !sortSlice_perm, Hbuf, Hbuf').
  assert (ID <$> shown r ≡ₚ ID <$> shown r') as Hids.
  { rewrite <- Hshown, <- Hshown'. destruct (NoDedup c); [by rewrite Hperm|].
    by apply mergeById_ids_perm. }
  split_and!.
  - by rewrite Hw, Hw'.
  - rewrite <- (length_fmap ID (shown r)), <- (length_fmap ID (shown r')).
    by rewrite Hids.
  - intros i. by rewrite Hids.
  - intros Hno. by rewrite <- Hshown, <- Hshown', Hno.
  - intros Hno Hnd. rewrite <- Hshown, Hno in Hnd.
    rewrite <- Hshown, <- Hshown', Hno. symmetry.
    apply sorted_arrangement_unique;
      [exact Hnd|apply sortSlice_sorted..|by symmetry].
Qed.

(** ** The fan-out never blocks *)

Lemma finished_no_step q s s' : finished s -> ~ step q s s'.
Proof.
  unfold finished. intros Hfin H.
  step_cases H; apply Forall_app in Hfin as [_ Hfin];
    apply Forall_cons in Hfin as [Hdone _]; congruence.
Qed.

Lemma finished_slots ws :
  Forall (fun w => at_ w = Done) ws -> countWorkers holdsSlot ws = 0.
Proof.
  induction 1 as [|w ws Hw _ IH]; [done|].
  rewrite countWorkers_cons, IH. unfold holdsSlot. by rewrite Hw.
Qed.

(** X9: the workers of [runEvents] cannot block one another: in every
    state that the fan-out can reach, either all the workers have
    returned or one of them can act, and some schedule from there
    makes all of them return.  Once they all have returned no slot of
    the semaphore is held and nothing more happens; there is all along
    one worker for each member, in the order of the members. *)
Theorem fanout_never_blocks (queryLower : string)
    (fetches : list (string * result (list (option calendar.Event))))
    (s : state) :
  reachable queryLower fetches s ->
  (finished s \/ exists s', step queryLower s s')
  /\ (exists s', rtc (step queryLower) s s' /\ finished s')
  /\ (finished s -> sem s = 0 /\ forall s', ~ step queryLower s s')
  /\ email <$> workers s = fst <$> fetches.
Proof.
  intros Hreach. destruct (reachable_sem _ _ _ Hreach) as [Hsem _].
  split_and!.
  - by apply progress.
  - by apply runs_to_the_end.
  - intros Hfin. split; [|intros s'; by apply finished_no_step].
    rewrite Hsem. by apply finished_slots.
  - rewrite <- (reachable_fetches _ _ _ Hreach), <- list_fmap_compose.
    by apply list_fmap_ext.
Qed.

(** ** The query *)

Lemma filteredOut_narrow q q' summary :
  strings.Contains q q' = true ->
  filteredOut q summary = false -> filteredOut q' summary = false.
Proof.
  unfold filteredOut, nonEmpty. intros Hsub Hkept.
  destruct (String.eqb_spec q' "") as [->|Hq']; [done|]. cbn [negb andb].
  apply negb_false_iff.
  destruct (String.eqb_spec q "") as [->|Hq].
  - destruct q'; [done|]. discriminate Hsub.
  - cbn [negb andb] in Hkept. apply negb_false_iff in Hkept.
    apply Contains_spec in Hkept as (a & b & Hs).
    apply Contains_spec in Hsub as (a' & b' & Hqq).
    apply Contains_spec. exists (a +:+ a'), (b' +:+ b).
    rewrite Hs, Hqq. by rewrite !string_app_assoc.
Qed.

Lemma processItem_narrow q q' m item te :
  strings.Contains q q' = true ->
  processItem q m item = Some te -> processItem q' m item = Some te.
Proof.
  intros Hsub. destruct item as [ev|]; [|done]. cbn [processItem].
  destruct (declined ev); [done|].
  destruct (filteredOut q (maskedSummary ev)) eqn:Hq; [done|].
  by rewrite (filteredOut_narrow _ _ _ Hsub Hq).
Qed.

Lemma omap_sublist {A B} (f g : A -> option B) (l : list A) :
  (forall x y, f x = Some y -> g x = Some y) ->
  omap f l `sublist_of` omap g l.
Proof.
  intros Hfg. induction l as [|x l IH]; [done|]. cbn [omap list_omap].
  destruct (f x) as [y|] eqn:Hf.
  - rewrite (Hfg _ _ Hf). by apply sublist_skip.
  - destruct (g x); [by apply sublist_cons|done].
Qed.

(** X10: a longer query can only hide events: when the query [q']
    occurs in the query [q], what a calendar contributes under [q] is
    what it contributes under [q'] with some events left out, in the
    same order.  Under the empty query every event that the member has
    not declined is kept. *)
Theorem narrower_query_shows_fewer_events (q q' member : string)
    (items : list (option calendar.Event)) :
  strings.Contains q q' = true ->
  contribution q member items `sublist_of` contribution q' member items
  /\ contribution q member items `sublist_of` contribution "" member items
  /\ (forall ev, Some ev ∈ items -> declined ev = false ->
        exists te, te ∈ contribution "" member items
                   /\ ID te = calendar.Id ev /\ Summary te = maskedSummary ev
                   /\ Who te = member)
  /\ (forall te, te ∈ contribution q member items -> q <> "" ->
        exists a b, strings.ToLower unicodeLower (Summary te) = a +:+ q +:+ b).
Proof.
  intros Hsub. split_and!.
  - apply omap_sublist. intros item te. by apply processItem_narrow.
  - apply omap_sublist. intros item te. apply processItem_narrow.
    by destruct q.
  - intros ev Hin Hdecl. eexists. split.
    + apply list_elem_of_omap. exists (Some ev). split; [done|].
      by apply processItem_kept.
    + done.
  - intros te (item & _ & Hproc)%list_elem_of_omap Hq.
    apply processItem_Some in Hproc as (ev & _ & _ & Hkept & _ & _ & Hsum & _).
    rewrite Hsum. unfold filteredOut, nonEmpty in Hkept.
    destruct (String.eqb_spec q "") as [?|_]; [done|].
    cbn [negb andb] in Hkept. apply negb_false_iff in Hkept.
    by apply Contains_spec.
Qed.

Lemma isASCII_app a b :
  strings.isASCII (a +:+ b) = strings.isASCII a && strings.isASCII b.
Proof.
  induction a as [|ch a IH]; [done|].
  change (Nat.ltb (nat_of_ascii ch) 128 && strings.isASCII (a +:+ b)
          = Nat.ltb (nat_of_ascii ch) 128 && strings.isASCII a && strings.isASCII b).
  by rewrite IH, andb_assoc.
Qed.

Lemma mapBytes_app f a b :
  strings.mapBytes f (a +:+ b) = strings.mapBytes f a +:+ strings.mapBytes f b.
Proof.
  induction a as [|ch a IH]; [done|].
  change (String (f ch) (strings.mapBytes f (a +:+ b))
          = String (f ch) (strings.mapBytes f a +:+ strings.mapBytes f b)).
  by rewrite IH.
Qed.

(** X11: the query is matched without regard to the case of ASCII
    letters, both in the query and in the title: an event that the
    member has not declined and whose shown title, made of ASCII bytes,
    has a part that equals the query once both are put in lower case
    is kept, and its title is shown as it was written. *)
Theorem query_ignores_ascii_case (c : CalendarTeamCmd) (member : string)
    (ev : calendar.Event) (a t b : string) :
  maskedSummary ev = a +:+ t +:+ b ->
  strings.isASCII (maskedSummary ev) = true ->
  strings.ToLower unicodeLower t = strings.ToLower unicodeLower (Query c) ->
  declined ev = false ->
  exists te,
    processItem (strings.ToLower unicodeLower (Query c)) member (Some ev) = Some te
    /\ Summary te = a +:+ t +:+ b
    /\ ID te = calendar.Id ev.
Proof.
  intros Hsum Hascii Hlow Hdecl.
  eexists. split; [apply processItem_kept; [done|]|by rewrite <- Hsum].
  unfold filteredOut. apply andb_false_iff. right. apply negb_false_iff.
  apply Contains_spec. rewrite <- Hlow.
  rewrite Hsum in Hascii |- *.
  pose proof Hascii as Hparts.
  rewrite !isASCII_app in Hparts.
  apply andb_true_iff in Hparts as [Ha [Ht Hb]%andb_true_iff].
  unfold strings.ToLower. rewrite Hascii, Ht.
  exists (strings.mapBytes strings.lowerByte a), (strings.mapBytes strings.lowerByte b).
  by rewrite !mapBytes_app.
Qed.

(** ** The titles of private events *)

Lemma redact_private title ev :
  isPrivate ev = true -> redact (withSummary title ev) = redact ev.
Proof.
  intros Hp. unfold redact.
  assert (isPrivate (withSummary title ev) = true) as -> by exact Hp.
  by rewrite Hp.
Qed.

Lemma redact_idemp ev : redact (redact ev) = redact ev.
Proof.
  unfold redact. destruct (isPrivate ev) eqn:Hp; [|by rewrite Hp].
  assert (isPrivate (withSummary "" ev) = true) as -> by exact Hp. done.
Qed.

Lemma processItem_redact q m item :
  processItem q m (redactItem item) = processItem q m item.
Proof.
  destruct item as [ev|]; [|done].
  unfold redactItem. cbn [fmap option_fmap option_map].
  unfold redact. destruct (isPrivate ev) eqn:Hp; [|done].
  unfold processItem, maskedSummary, formatEventTime, parseEventStart,
    declined, withSummary.
  cbn [calendar.Id calendar.Summary calendar.Visibility calendar.Status
       calendar.Start calendar.End calendar.Attendees].
  unfold isPrivate in Hp. by rewrite Hp.
Qed.

Lemma redactItems_idemp items : redactItems (redactItems items) = redactItems items.
Proof.
  unfold redactItems. rewrite <- list_fmap_compose. apply list_fmap_ext.
  intros _ [ev|] _; [|done]. unfold redactItem. cbn. by rewrite redact_idemp.
Qed.

Lemma redactFetch_idemp f : redactFetch (redactFetch f) = redactFetch f.
Proof.
  destruct f as [m [items|msg]]; [|done].
  unfold redactFetch. cbn [fst snd redactResponse]. by rewrite redactItems_idemp.
Qed.

Lemma redactWorker_goto w w' p p' :
  redactWorker w' = redactWorker w -> redactPc p' = redactPc p ->
  redactWorker (goto w' p') = redactWorker (goto w p).
Proof.
  unfold redactWorker, goto. cbn [email response at_].
  intros [= He Hr _] Hp. by rewrite He, Hr, Hp.
Qed.

Lemma redactWorker_split (wt : list worker) ws1 w ws2 :
  redactWorker <$> wt = redactWorker <$> ws1 ++ w :: ws2 ->
  exists wt1 w' wt2,
    wt = wt1 ++ w' :: wt2
    /\ redactWorker <$> wt1 = redactWorker <$> ws1
    /\ redactWorker w' = redactWorker w
    /\ redactWorker <$> wt2 = redactWorker <$> ws2.
Proof.
  rewrite fmap_app, fmap_cons.
  intros (wt1 & rest & H1 & H2 & ->)%fmap_app_inv.
  symmetry in H2. apply fmap_cons_inv in H2 as (w' & wt2 & Hw & H2 & ->).
  by exists wt1, w', wt2.
Qed.

Lemma redacted_workers wt1 w' wt2 ws1 w ws2 :
  redactWorker <$> wt1 = redactWorker <$> ws1 ->
  redactWorker w' = redactWorker w ->
  redactWorker <$> wt2 = redactWorker <$> ws2 ->
  redactWorker <$> wt1 ++ w' :: wt2 = redactWorker <$> ws1 ++ w :: ws2.
Proof. intros H1 Hw H2. by rewrite !fmap_app, !fmap_cons, H1, Hw, H2. Qed.

(** A step of the fan-out is matched by a step of the fan-out over
    answers with the same redaction, with the same effect on the
    buffers. *)
Lemma step_redacted q s s' wt :
  redactWorker <$> wt = redactWorker <$> workers s ->
  step q s s' ->
  exists wt',
    step q {| workers := wt; events := events s; errors := errors s; sem := sem s |}
           {| workers := wt'; events := events s'; errors := errors s'; sem := sem s' |}
    /\ redactWorker <$> wt' = redactWorker <$> workers s'.
Proof.
  intros Hw H. step_cases H;
    apply redactWorker_split in Hw as (wt1 & w' & wt2 & -> & H1 & Hw & H2);
    pose proof Hw as [= Hemail Hsame Hpc]; rewrite Hat in Hpc.
  - exists (wt1 ++ goto w' Fetching :: wt2). split.
    + apply step_acquire; [|done]. by destruct (at_ w').
    + apply redacted_workers; [done| |done]. by apply redactWorker_goto.
  - exists (wt1 ++ goto w' Returning :: wt2). split.
    + rewrite <- Hemail. apply step_fetch_err; [by destruct (at_ w')|].
      rewrite Hresp in Hsame. by destruct (response w').
    + apply redacted_workers; [done| |done]. by apply redactWorker_goto.
  - rewrite Hresp in Hsame.
    destruct (response w') as [items'|] eqn:Hresp'; [|done].
    injection Hsame as Hitems.
    exists (wt1 ++ goto w' (Emitting items') :: wt2). split.
    + apply step_fetch_ok; [by destruct (at_ w')|done].
    + apply redacted_workers; [done| |done]. apply redactWorker_goto; [done|].
      cbn [redactPc]. by rewrite Hitems.
  - destruct (at_ w') as [| |items'| |] eqn:Hat'; try done.
    cbn [redactPc] in Hpc. injection Hpc as Hitems.
    unfold redactItems in Hitems.
    apply fmap_cons_inv in Hitems as (item' & rest' & Hitem & Hrest & ->).
    exists (wt1 ++ goto w' (Emitting rest') :: wt2). split.
    + rewrite <- (processItem_redact q (email w) item), Hitem, <- Hemail.
      rewrite processItem_redact. by apply step_emit.
    + apply redacted_workers; [done| |done]. apply redactWorker_goto; [done|].
      cbn [redactPc]. unfold redactItems. by rewrite Hrest.
  - destruct (at_ w') as [| |items'| |] eqn:Hat'; try done.
    cbn [redactPc] in Hpc. injection Hpc as Hitems.
    apply fmap_nil_inv in Hitems as ->.
    exists (wt1 ++ goto w' Returning :: wt2). split.
    + by apply step_loop_end.
    + apply redacted_workers; [done| |done]. by apply redactWorker_goto.
  - exists (wt1 ++ goto w' Done :: wt2). split.
    + apply step_release. by destruct (at_ w').
    + apply redacted_workers; [done| |done]. by apply redactWorker_goto.
Qed.

Lemma reachable_redacted q fetches fetches' s :
  redactFetch <$> fetches' = redactFetch <$> fetches ->
  reachable q fetches s ->
  exists wt,
    reachable q fetches'
      {| workers := wt; events := events s; errors := errors s; sem := sem s |}
    /\ redactWorker <$> wt = redactWorker <$> workers s.
Proof.
  intros Hsame. revert s. apply reachable_induction.
  - exists (spawn <$> fetches'). split; [apply rtc_refl|].
    unfold init. cbn [workers].
    assert (forall l : list (string * result (list (option calendar.Event))),
              redactWorker <$> (spawn <$> l) = spawn <$> (redactFetch <$> l))
      as Hspawn.
    { intros l. rewrite <- !list_fmap_compose. by apply list_fmap_ext. }
    by rewrite !Hspawn, Hsame.
  - intros s s' _ Hstep (wt & Hreach & Hw).
    destruct (step_redacted _ _ _ _ Hw Hstep) as (wt' & Hstep' & Hw').
    exists wt'. split; [|done]. by eapply rtc_r.
Qed.

Lemma finished_redacted wt ws :
  redactWorker <$> wt = redactWorker <$> ws ->
  Forall (fun w => at_ w = Done) ws -> Forall (fun w => at_ w = Done) wt.
Proof.
  revert ws. induction wt as [|w' wt IH]; intros [|w ws]; try done.
  rewrite !fmap_cons. intros [= _ _ Hpc Hrest] [Hw Hws]%Forall_cons.
  constructor; [|by eapply IH].
  rewrite Hw in Hpc. by destruct (at_ w').
Qed.

(** X12: the title of a private or confidential event has no effect
    on what the command prints: an event gives the same entry whatever
    its title, and two answers of the server that differ in such titles
    only give the same reports, under every schedule and with every
    query, so that the command prints what it would print had the
    server blanked those titles. *)
Theorem private_titles_never_reach_the_output (c : CalendarTeamCmd) :
  (forall queryLower member title ev,
     calendar.Visibility ev = "private" \/ calendar.Visibility ev = "confidential" ->
     redact (withSummary title ev) = redact ev
     /\ processItem queryLower member (Some (withSummary title ev))
        = processItem queryLower member (Some ev))
  /\ (forall ev, isPrivate ev = false -> redact ev = ev)
  /\ (forall fetches fetches' r,
        redactFetch <$> fetches' = redactFetch <$> fetches ->
        runEvents c fetches r -> runEvents c fetches' r)
  /\ (forall fetches r,
        runEvents c (redactFetch <$> fetches) r <-> runEvents c fetches r).
Proof.
  assert (forall fetches fetches' r,
            redactFetch <$> fetches' = redactFetch <$> fetches ->
            runEvents c fetches r -> runEvents c fetches' r) as Hsame.
  { intros fetches fetches' r Heq (s & Hreach & Hfin & Hw & Hout).
    destruct (reachable_redacted _ _ _ _ Heq Hreach) as (wt & Hreach' & Hwt).
    eexists. split_and!; [exact Hreach'| |exact Hw|exact Hout].
    by eapply finished_redacted. }
  assert (forall fetches : list (string * result (list (option calendar.Event))),
            redactFetch <$> (redactFetch <$> fetches) = redactFetch <$> fetches)
    as Hidem.
  { intros fetches. rewrite <- list_fmap_compose. apply list_fmap_ext.
    intros _ f _. apply redactFetch_idemp. }
  split_and!.
  - intros q m title ev Hvis.
    assert (isPrivate ev = true) as Hp.
    { unfold isPrivate. destruct Hvis as [-> | ->]; [done|].
      apply orb_true_r. }
    split; [by apply redact_private|].
    rewrite <- (processItem_redact q m (Some (withSummary title ev))).
    rewrite <- (processItem_redact q m (Some ev)).
    unfold redactItem. cbn [fmap option_fmap option_map]. by rewrite redact_private.
  - intros ev Hp. unfold redact. by rewrite Hp.
  - exact Hsame.
  - intros fetches r. split; apply Hsame; by rewrite Hidem.
Qed.

(** ** What [runEvents] writes *)

(** X13: without [--json], [runEvents] prints "No events found"
    exactly when no calendar returned an event that is kept, which
    includes the case in which every call failed; otherwise it prints
    a table with one row for each shown entry.  With [--json] it
    always writes the object, also when there is no event. *)
Theorem no_events_found_message (c : CalendarTeamCmd)
    (fetches : list (string * result (list (option calendar.Event))))
    (r : report) :
  runEvents c fetches r ->
  (renderEvents false (shown r) = Some NoEventsFound <->
   forall m items ev,
     (m, Ok items) ∈ fetches -> Some ev ∈ items ->
     declined ev = true
     \/ filteredOut (strings.ToLower unicodeLower (Query c)) (maskedSummary ev) = true)
  /\ (renderEvents false (shown r) <> Some NoEventsFound ->
      exists rows, renderEvents false (shown r) = Some (EventsTable rows)
                   /\ length rows = length (shown r) /\ rows <> [])
  /\ renderEvents true (shown r) = Some (EventsJSON (shown r))
  /\ (Forall (fun f => failed f = true) fetches ->
      renderEvents false (shown r) = Some NoEventsFound).
Proof using sortSlice_perm.
  intros Hrun. pose proof (runEvents_ids _ _ _ Hrun) as Hids.
  assert (forall evs, evs <> [] ->
            exists rows, renderEvents false evs = Some (EventsTable rows)
                         /\ length rows = length evs) as Htable.
  { intros evs Hne. unfold renderEvents.
    destruct evs as [|ev evs]; [done|]. cbn [length Nat.eqb].
    assert (is_Some (mapM eventRow (ev :: evs))) as [rows Hrows].
    { apply mapM_is_Some, Forall_forall. intros x _. unfold compose, eventRow.
      destruct (truncate_fits_width_aux (Summary x)) as (cell & -> & _).
      by eexists. }
    exists rows. rewrite Hrows. split; [done|].
    symmetry. apply (length_mapM _ _ _ Hrows). }
  assert (renderEvents false (shown r) = Some NoEventsFound <-> shown r = []) as Hnone.
  { split.
    - intros Hrender. destruct (shown r) as [|ev evs] eqn:Hshown; [done|].
      destruct (Htable (ev :: evs)) as (rows & Hrows & _); [done|].
      by rewrite Hrows in Hrender.
    - by intros ->. }
  assert (shown r = [] <->
          forall m items ev,
            (m, Ok items) ∈ fetches -> Some ev ∈ items ->
            declined ev = true
            \/ filteredOut (strings.ToLower unicodeLower (Query c)) (maskedSummary ev)
               = true) as Hempty.
  { split.
    - intros Hnil m items ev Hf Hitem.
      destruct (declined ev) eqn:Hdecl; [by left|].
      destruct (filteredOut _ (maskedSummary ev)) eqn:Hkeep; [by right|].
      assert (calendar.Id ev ∈ ID <$> shown r) as Hin
        by (apply Hids; by exists m, items, ev).
      rewrite Hnil in Hin. by apply elem_of_nil in Hin.
    - intros Hnone'. destruct (shown r) as [|e evs] eqn:Hshown; [done|].
      assert (ID e ∈ ID <$> e :: evs) as Hin
        by (rewrite fmap_cons; apply list_elem_of_here).
      apply Hids in Hin as (m & items & ev & Hf & Hitem & Hdecl & Hkeep & _).
      destruct (Hnone' m items ev Hf Hitem); congruence. }
  split_and!.
  - by rewrite Hnone, Hempty.
  - intros Hsome. rewrite Hnone in Hsome.
    destruct (Htable _ Hsome) as (rows & Hrows & Hlen).
    exists rows. split_and!; [done|done|].
    intros ->. destruct (shown r); [done|discriminate Hlen].
  - done.
  - intros Hall. apply Hnone, Hempty. intros m items ev Hf _.
    rewrite Forall_forall in Hall. by specialize (Hall _ Hf).
Qed.

(** ** [Run] from end to end *)

Lemma Run_inv c out :
  Run c out ->
  (exists e, out = Failed e)
  \/ (exists msg, out = Diagnostic msg)
  \/ exists account name memberships,
       requireAccount = Ok account
       /\ TrimSpace (GroupEmail c) <> ""
       /\ groupsLookupDo (TrimSpace (GroupEmail c)) = Ok name
       /\ membershipsListDo name = Ok memberships
       /\ memberEmails memberships <> []
       /\ if FreeBusy c then out = runFreeBusy (memberEmails memberships)
          else exists r, out = EventsReport r
                         /\ runEvents c (fetchesOf (memberEmails memberships)) r.
Proof.
  unfold Run, lookupGroupByEmail.
  destruct requireAccount as [account|e]; [|intros ->; left; by eexists].
  destruct (String.eqb_spec (TrimSpace (GroupEmail c)) "") as [Hgroup|Hgroup];
    [intros ->; left; by eexists|].
  destruct (newCalendarService account); [|intros ->; left; by eexists].
  destruct ResolveTimeRange; [|intros ->; left; by eexists].
  destruct (newCloudIdentityService account); [|intros ->; left; by eexists].
  destruct (groupsLookupDo (TrimSpace (GroupEmail c))) as [name|cause] eqn:Hlook;
    [|intros ->; left; by eexists].
  destruct (membershipsListDo name) as [memberships|cause] eqn:Hlist;
    [|intros ->; left; by eexists].
  destruct (Nat.eqb (length memberships) 0); [intros ->; right; left; by eexists|].
  destruct (memberEmails memberships) as [|member members] eqn:Hmembers;
    [intros ->; right; left; by eexists|].
  cbn [length Nat.eqb]. intros Hout. right; right.
  exists account, name, memberships. rewrite Hmembers. by split_and!.
Qed.

Lemma elem_of_fetchesOf emails m resp :
  (m, resp) ∈ fetchesOf emails -> m ∈ emails.
Proof.
  unfold fetchesOf. intros (k & member & [= -> _] & Hlook)%elem_of_lookup_imap.
  by eapply list_elem_of_lookup_2.
Qed.

(** X14: every address under WHO in the events report of [Run] is the
    address of a user member of the group that was looked up: the
    field is the comma-joined list of one or more such addresses, a
    single one with [--no-dedup], and each warning is about such a
    member.  An events report is never the outcome with [--freebusy]. *)
Theorem Run_shows_only_group_members (c : CalendarTeamCmd) (r : report) :
  Run c (EventsReport r) ->
  FreeBusy c = false
  /\ exists account name memberships,
       requireAccount = Ok account
       /\ groupsLookupDo (TrimSpace (GroupEmail c)) = Ok name
       /\ membershipsListDo name = Ok memberships
       /\ (forall e, e ∈ shown r ->
             exists first others,
               Who e = strings.Join (first :: others) ", "
               /\ forall m, m ∈ first :: others -> m ∈ memberEmails memberships)
       /\ (NoDedup c = true ->
           forall e, e ∈ shown r -> Who e ∈ memberEmails memberships)
       /\ (forall x, x ∈ warnings r ->
             exists m msg, m ∈ memberEmails memberships /\ x = warningOf m msg)
       /\ length (warnings r) <= length (memberEmails memberships).
Proof using sortSlice_perm.
  intros [(e & [=])|[(msg & [=])|(account & name & memberships & Hacc & _ & Hlook
                                    & Hlist & _ & Hout)]]%Run_inv.
  destruct (FreeBusy c).
  { unfold runFreeBusy in Hout.
    by destruct (freebusyQueryDo (memberEmails memberships)). }
  destruct Hout as (r' & [= <-] & Hrun).
  split; [done|]. exists account, name, memberships.
  destruct (runEvents_buffers _ _ _ Hrun) as (Hw & buffer & Hbuf & Hfinal).
  set (q := strings.ToLower unicodeLower (Query c)) in *.
  assert (forall x, x ∈ buffer -> Who x ∈ memberEmails memberships) as Hwho.
  { intros x Hx. rewrite Hbuf in Hx.
    apply elem_of_fetchEvents in Hx as (m & items & item & Hf & _ & Hproc).
    apply processItem_Some in Hproc as (_ & _ & _ & _ & -> & _).
    by eapply elem_of_fetchesOf. }
  split_and!; [done..| | | |].
  - intros e He.
    destruct (finalEvents_who _ _ _ _ Hfinal He) as (f & rest & Hjoin & Hin & _).
    exists (Who f), (Who <$> rest). split; [done|].
    intros m Hm. rewrite <- fmap_cons in Hm.
    apply list_elem_of_fmap in Hm as (x & -> & Hx).
    apply Hwho. by apply Hin.
  - intros Hno e He.
    destruct (finalEvents_who _ _ _ _ Hfinal He) as (_ & _ & _ & _ & Hbuffer).
    by apply Hwho, Hbuffer.
  - intros x Hx. rewrite Hw in Hx.
    apply elem_of_fetchWarnings in Hx as (m & msg & Hf & ->).
    exists m, msg. split; [|done]. by eapply elem_of_fetchesOf.
  - rewrite Hw, length_fetchWarnings.
    etransitivity; [apply length_filter|].
    unfold fetchesOf. by rewrite length_imap.
Qed.


(** ** The rows of [runFreeBusy] *)

Lemma Join_head (first : string) (others : list string) (sep : string) :
  exists tail, strings.Join (first :: others) sep = first +:+ tail.
Proof.
  unfold strings.Join. destruct others as [|second others].
  - exists "". cbn [String.concat]. clear. induction first as [|ch first IH]; [done|].
    change (String ch first = String ch (first +:+ "")). by rewrite <- IH.
  - by exists (sep +:+ String.concat sep (second :: others)).
Qed.

Lemma busyBlocks_have_a_dash (first : calendar.TimePeriod)
    (others : list calendar.TimePeriod) :
  strings.Contains (strings.Join (busyBlock <$> first :: others) ", ") "-" = true.
Proof.
  rewrite fmap_cons.
  destruct (Join_head (busyBlock first) (busyBlock <$> others) ", ") as [tail ->].
  apply Contains_spec. unfold busyBlock.
  exists (clock (parseOrZero (calendar.PeriodStart first))),
         (clock (parseOrZero (calendar.PeriodEnd first)) +:+ tail).
  by rewrite !string_app_assoc.
Qed.

Lemma omap_busyResultOf calendars (emails : list string) :
  Email <$> omap (busyResultOf calendars) emails
  = filter (fun m => is_Some (calendars !! m)) emails.
Proof.
  induction emails as [|m emails IH]; [done|]. cbn [omap list_omap].
  unfold busyResultOf at 1. destruct (calendars !! m) as [cal|] eqn:Hcal.
  - rewrite filter_cons_True by (by rewrite Hcal). rewrite fmap_cons. by rewrite IH.
  - rewrite filter_cons_False; [done|]. rewrite Hcal. by intros [? ?].
Qed.

(** X16: when the free/busy query succeeds, [runFreeBusy] reports one
    row for each member that the answer lists, in the order of the
    members; a member that the answer does not list has no row.  A row
    has one block for each busy interval of the member; its text is
    "(free)" exactly when the answer has neither a busy interval nor
    an error for the member, and when it has an error the text is the
    errors and the busy blocks are not shown. *)
Theorem runFreeBusy_rows (emails : list string)
    (calendars : gmap string calendar.FreeBusyCalendar) :
  freebusyQueryDo emails = Ok calendars ->
  exists results,
    runFreeBusy emails = FreeBusyReport results
    /\ Email <$> results = filter (fun m => is_Some (calendars !! m)) emails
    /\ (forall m, m ∈ emails -> calendars !! m = None -> m ∉ Email <$> results)
    /\ (forall r, r ∈ results ->
          exists cal,
            calendars !! Email r = Some cal
            /\ length (BusyBlocks r) = length (calendar.Busy cal)
            /\ ErrorReasons r = calendar.Errors cal
            /\ (busyText r = "(free)" <->
                calendar.Busy cal = [] /\ calendar.Errors cal = [])
            /\ (calendar.Errors cal <> [] ->
                busyText r = "error: " +:+ strings.Join (calendar.Errors cal) ", ")
            /\ (calendar.Errors cal = [] -> calendar.Busy cal <> [] ->
                busyText r = strings.Join (busyBlock <$> calendar.Busy cal) ", ")).
Proof.
  intros Hquery. unfold runFreeBusy. rewrite Hquery. eexists. split; [done|].
  split_and!.
  - apply omap_busyResultOf.
  - intros m _ Hnone. rewrite omap_busyResultOf.
    intros [[cal Hcal] _]%list_elem_of_filter. congruence.
  - intros r (m & Hm & Hr)%list_elem_of_omap. unfold busyResultOf in Hr.
    destruct (calendars !! m) as [cal|] eqn:Hcal; [|done].
    injection Hr as <-. cbn [Email BusyBlocks ErrorReasons].
    exists cal. split_and!; [done|by rewrite length_fmap|done| | |].
    + unfold busyText. cbn [BusyBlocks ErrorReasons].
      destruct (calendar.Errors cal) as [|reason reasons].
      * cbn [length Nat.ltb Nat.leb].
        destruct (calendar.Busy cal) as [|first others]; [done|].
        pose proof (busyBlocks_have_a_dash first others) as Hdash.
        destruct (String.eqb_spec
                    (strings.Join (busyBlock <$> first :: others) ", ") "")
          as [Hnil|_].
        { rewrite Hnil in Hdash. discriminate Hdash. }
        split; [|by intros [? _]].
        intros Hfree. rewrite Hfree in Hdash. discriminate Hdash.
      * cbn [length Nat.ltb Nat.leb]. split; [discriminate|by intros [_ ?]].
    + intros Herr. unfold busyText. cbn [BusyBlocks ErrorReasons].
      by destruct (calendar.Errors cal).
    + intros -> Hbusy. unfold busyText. cbn [BusyBlocks ErrorReasons length Nat.ltb Nat.leb].
      destruct (calendar.Busy cal) as [|first others]; [done|].
      pose proof (busyBlocks_have_a_dash first others) as Hdash.
      destruct (String.eqb_spec
                  (strings.Join (busyBlock <$> first :: others) ", ") "")
        as [Hnil|_]; [|done].
      rewrite Hnil in Hdash. discriminate Hdash.
Qed.

(** X17: every row of the free/busy report of [Run] is about a user
    member of the group that was looked up and that the answer of the
    free/busy query lists; the rows follow the order of the members,
    and the query is asked once, for all the user members.  A
    free/busy report is the outcome only with [--freebusy]. *)
Theorem Run_freebusy_rows_are_members (c : CalendarTeamCmd)
    (results : list busyResult) :
  Run c (FreeBusyReport results) ->
  FreeBusy c = true
  /\ exists account name memberships calendars,
       requireAccount = Ok account
       /\ groupsLookupDo (TrimSpace (GroupEmail c)) = Ok name
       /\ membershipsListDo name = Ok memberships
       /\ freebusyQueryDo (memberEmails memberships) = Ok calendars
       /\ Email <$> results
          = filter (fun m => is_Some (calendars !! m)) (memberEmails memberships)
       /\ Email <$> results `sublist_of` memberEmails memberships
       /\ length results <= length (memberEmails memberships)
       /\ (forall r, r ∈ results ->
             Email r ∈ memberEmails memberships
             /\ exists cal, calendars !! Email r = Some cal
                            /\ BusyBlocks r = busyBlock <$> calendar.Busy cal
                            /\ ErrorReasons r = calendar.Errors cal).
Proof.
  intros [(e & [=])|[(msg & [=])|(account & name & memberships & Hacc & _ & Hlook
                                    & Hlist & _ & Hout)]]%Run_inv.
  destruct (FreeBusy c); [|by destruct Hout as (r & [=] & _)].
  split; [done|]. unfold runFreeBusy in Hout.
  destruct (freebusyQueryDo (memberEmails memberships)) as [calendars|cause] eqn:Hquery;
    [|done].
  injection Hout as ->. exists account, name, memberships, calendars.
  pose proof (omap_busyResultOf calendars (memberEmails memberships)) as Hrows.
  split_and!; [done..| | |].
  - rewrite Hrows. apply sublist_filter.
  - rewrite <- (length_fmap Email), Hrows. apply length_filter.
  - intros r (m & Hm & Hr)%list_elem_of_omap. unfold busyResultOf in Hr.
    destruct (calendars !! m) as [cal|] eqn:Hcal; [|done].
    injection Hr as <-. cbn [Email BusyBlocks ErrorReasons].
    split; [done|]. by exists cal.
Qed.

End Aggregator.

(** * The properties on the examples *)

Example ParseDate_reads_a_date :
  time.ParseDate "2026-01-05" = Some (time.midnight 2026 1 5)
  /\ time.ParseDate "1970-01-01" = Some (62135596800 * time.nsPerSecond)%Z
  /\ time.ParseDate "0001-01-01" = Some time.zero.
Proof. vm_compute. done. Qed.

Example ParseDate_rejects :
  time.ParseDate "2026-02-30" = None
  /\ time.ParseDate "2026-13-01" = None
  /\ time.ParseDate "2026-1-5" = None
  /\ time.ParseDate "2026-01-05T09:00:00Z" = None
  /\ time.ParseDate "" = None.
Proof. vm_compute. done. Qed.

Example ToLower_ascii :
  strings.ToLower noUnicode "Daily Standup (X)" = "daily standup (x)".
Proof. vm_compute. reflexivity. Qed.

Example Contains_examples :
  strings.Contains "daily standup" "stand" = true
  /\ strings.Contains "daily standup" "" = true
  /\ strings.Contains "daily standup" "lunch" = false
  /\ strings.Contains "(busy)" "busy" = true.
Proof. vm_compute. done. Qed.

Example contribution_of_bob :
  contribution parseUTC clockUTC noUnicode "" bob
    [Some standup; None; Some skipped; Some busyLunch; Some undated]
  = [ entry bob "ev1" "09:00" "09:30" "Daily Standup" nine;
      entry bob "ev3" "12:00" "13:00" "(busy)" (time.Date 2026 1 5 12 0 0 0);
      {| Who := bob; ID := "ev6"; Start := ""; End := ""; Summary := "Someday";
         Status := "tentative"; sortKey := time.zero |} ].
Proof. vm_compute. reflexivity. Qed.

Lemma dedupeTeamEvents_merges_owners_witness :
  exists out,
    dedupeTeamEvents (insertionSort scenarioBuffer) = Some out
    /\ exists e, occurrences "ev1" out = [e]
                 /\ Who e = "bob@example.com, alice@example.com".
Proof.
  destruct (dedupeTeamEvents_merges_owners (insertionSort scenarioBuffer))
    as (out & Hout & _ & _ & _ & _ & Htwo).
  exists out. split; [exact Hout|].
  apply (Htwo "ev1" (entry bob "ev1" "09:00" "09:30" "Daily Standup" nine)
              (entry alice "ev1" "09:00" "09:30" "Daily Standup" nine)).
  reflexivity.
Defined.

Lemma dedupeTeamEvents_distinct_ids_witness :
  exists out,
    dedupeTeamEvents scenarioBuffer = Some out
    /\ length out = 2
    /\ exists f rest,
         occurrences "ev1" scenarioBuffer = f :: rest
         /\ Who f = bob /\ (Who <$> rest) = [alice].
Proof.
  destruct (dedupeTeamEvents_distinct_ids scenarioBuffer)
    as (out & Hout & _ & _ & Hlen & Hfields).
  exists out. split; [exact Hout|].
  split; [rewrite Hlen; vm_compute; reflexivity|].
  assert (out = [entry "bob@example.com, alice@example.com" "ev1" "09:00" "09:30"
                   "Daily Standup" nine;
                 entry bob "ev2" "14:00" "15:00" "Bob's 1:1" two]) as ->.
  { assert (dedupeTeamEvents scenarioBuffer =
            Some [entry "bob@example.com, alice@example.com" "ev1" "09:00" "09:30"
                    "Daily Standup" nine;
                  entry bob "ev2" "14:00" "15:00" "Bob's 1:1" two]) as Hrun
      by (vm_compute; reflexivity).
    rewrite Hrun in Hout. by injection Hout. }
  destruct (Hfields _ (list_elem_of_here _ _)) as (f & rest & Hocc & _).
  exists f, rest. split; [exact Hocc|].
  vm_compute in Hocc. injection Hocc as <- <-. split; reflexivity.
Defined.

Lemma runEvents_output_sorted_witness :
  exists out,
    finalEvents insertionSort teamCmd scenarioBuffer = Some out
    /\ sortedByStart out
    /\ parseEventStart parseUTC offsite = time.midnight 2026 1 5.
Proof.
  destruct (runEvents_output_sorted parseUTC clockUTC noUnicode insertionSort
              insertionSort_perm insertionSort_sorted teamCmd scenarioBuffer)
    as (out & Hout & Hsorted & _ & _ & _ & Hday).
  exists out. split; [exact Hout|]. split; [exact Hsorted|].
  apply (Hday offsite {| calendar.Date := "2026-01-05"; calendar.DateTime := "" |});
    reflexivity.
Defined.

Example scenario_alice_first :
  finalEvents insertionSort teamCmd
    (fetchEvents parseUTC clockUTC noUnicode "" (alice, Ok [Some standup])
     ++ fetchEvents parseUTC clockUTC noUnicode "" (bob, Ok [Some standup; Some oneOnOne]))
  = Some [ entry "alice@example.com, bob@example.com" "ev1" "09:00" "09:30"
             "Daily Standup" nine;
           entry bob "ev2" "14:00" "15:00" "Bob's 1:1" two ].
Proof. vm_compute. reflexivity. Qed.

Example scenario_bob_first :
  finalEvents insertionSort teamCmd scenarioBuffer
  = Some [ entry "bob@example.com, alice@example.com" "ev1" "09:00" "09:30"
             "Daily Standup" nine;
           entry bob "ev2" "14:00" "15:00" "Bob's 1:1" two ].
Proof. vm_compute. reflexivity. Qed.

Example scenario_no_dedup :
  finalEvents insertionSort
    {| GroupEmail := "engineering@example.com"; FreeBusy := false; Query := "";
       Max := 100; NoDedup := true |}
    (fetchEvents parseUTC clockUTC noUnicode "" (alice, Ok [Some standup])
     ++ fetchEvents parseUTC clockUTC noUnicode "" (bob, Ok [Some standup; Some oneOnOne]))
  = Some [ entry alice "ev1" "09:00" "09:30" "Daily Standup" nine;
           entry bob "ev1" "09:00" "09:30" "Daily Standup" nine;
           entry bob "ev2" "14:00" "15:00" "Bob's 1:1" two ].
Proof. vm_compute. reflexivity. Qed.

Example all_day_sorts_at_midnight :
  processItem parseUTC clockUTC noUnicode "" bob (Some offsite)
  = Some {| Who := bob; ID := "ev5"; Start := "2026-01-05"; End := "2026-01-06";
            Summary := "Offsite"; Status := "confirmed";
            sortKey := time.midnight 2026 1 5 |}.
Proof. vm_compute. reflexivity. Qed.

Lemma sort_dedupe_idempotent_witness :
  exists out,
    dedupeTeamEvents (insertionSort scenarioBuffer) = Some out
    /\ dedupeTeamEvents (insertionSort out) = Some out.
Proof.
  destruct (sort_dedupe_idempotent insertionSort insertionSort_perm
              insertionSort_sorted scenarioBuffer)
    as (_ & out & out' & Hfirst & Hsecond & _ & _ & Hsame).
  exists out. split; [exact Hfirst|].
  rewrite Hsecond. f_equal. apply Hsame. exact insertionSort_sorted_id.
Defined.

(** One action of the worker that stands at position [k]. *)
Ltac acts k :=
  lazymatch goal with
  | |- rtc _ ?s _ =>
      let ws1 := eval cbn [take workers] in (take k (workers s)) in
      eapply rtc_l;
      [ first
          [ eapply (step_acquire _ _ _ _ ws1); [reflexivity|unfold semCap; lia]
          | eapply (step_fetch_ok _ _ _ _ ws1); [reflexivity|reflexivity]
          | eapply (step_fetch_err _ _ _ _ ws1); [reflexivity|reflexivity]
          | eapply (step_emit _ _ _ _ ws1); reflexivity
          | eapply (step_loop_end _ _ _ _ ws1); reflexivity
          | eapply (step_release _ _ _ _ ws1); reflexivity ]
      | cbn [app goto email response at_] ]
  end.

(** The concrete scenario: bob's worker appends its first event before
    alice's worker appends hers. *)
Example scenario_run :
  runEvents parseUTC clockUTC noUnicode insertionSort teamCmd scenario
    {| warnings := [];
       shown := [ entry "bob@example.com, alice@example.com" "ev1" "09:00" "09:30"
                    "Daily Standup" nine;
                  entry bob "ev2" "14:00" "15:00" "Bob's 1:1" two ] |}.
Proof.
  eexists. split_and!.
  - unfold reachable, init, scenario. cbn [fmap list_fmap spawn fst snd].
    acts 0. acts 1. acts 1. acts 1.
    acts 0. acts 0.
    acts 1. acts 1. acts 1.
    acts 0. acts 0.
    apply rtc_refl.
  - repeat constructor.
  - reflexivity.
  - vm_compute. reflexivity.
Qed.

(** The same scenario when alice's call fails. *)
Example scenario_run_without_alice :
  runEvents parseUTC clockUTC noUnicode insertionSort teamCmd
    [ (alice, Err "googleapi: Error 403: Forbidden");
      (bob, Ok [Some standup; Some oneOnOne]) ]
    {| warnings := ["alice@example.com: googleapi: Error 403: Forbidden"];
       shown := [ entry bob "ev1" "09:00" "09:30" "Daily Standup" nine;
                  entry bob "ev2" "14:00" "15:00" "Bob's 1:1" two ] |}.
Proof.
  eexists. split_and!.
  - unfold reachable, init. cbn [fmap list_fmap spawn fst snd].
    acts 0. acts 1. acts 1. acts 1.
    acts 0. acts 0.
    acts 1. acts 1. acts 1.
    apply rtc_refl.
  - repeat constructor.
  - reflexivity.
  - vm_compute. reflexivity.
Qed.

Lemma at_most_ten_fetches_in_flight_witness :
  countWorkers inFlight (workers tenFetching) = 10
  /\ countWorkers inFlight (workers tenFetching) <= 10.
Proof.
  split; [reflexivity|].
  apply (at_most_ten_fetches_in_flight parseUTC clockUTC noUnicode "" fifty tenFetching).
  apply (first_workers_fetch parseUTC clockUTC noUnicode ""
           (replicate 10 (alice, Ok [Some standup]))
           (replicate 40 (alice, Ok [Some standup]))).
  cbn. unfold semCap. lia.
Defined.



Lemma declined_events_are_excluded_witness :
  processItem parseUTC clockUTC noUnicode "" bob (Some skipped) = None.
Proof.
  refine (proj1 (declined_events_are_excluded parseUTC clockUTC noUnicode "" bob skipped _)).
  exists {| calendar.Self := true; calendar.ResponseStatus := "declined" |}.
  split; [|split; reflexivity].
  apply list_elem_of_further, list_elem_of_here.
Defined.

Lemma private_events_show_as_busy_witness :
  processItem parseUTC clockUTC noUnicode "lunch" bob (Some busyLunch) = None
  /\ exists te, processItem parseUTC clockUTC noUnicode "" bob (Some busyLunch) = Some te
                /\ Summary te = "(busy)".
Proof.
  split.
  - destruct (private_events_show_as_busy parseUTC clockUTC noUnicode "lunch" bob busyLunch)
      as (_ & _ & Hdrop & _); [by left|].
    apply Hdrop; [discriminate|].
    intros Hsub. apply Contains_spec in Hsub. discriminate Hsub.
  - destruct (private_events_show_as_busy parseUTC clockUTC noUnicode "" bob busyLunch)
      as (_ & _ & _ & Hkeep); [by left|].
    destruct Hkeep as (te & Hte & Hsum & _); [reflexivity|by left|].
    by exists te.
Defined.

(** C2 as it is stated fails: the private event "Busy lunch" matches the
    query "Busy" by its title, and it is shown all the same, because
    the query also occurs in the sentinel "(busy)". *)
Lemma private_event_matching_query_is_shown :
  ~ (forall query member ev,
       query <> "" ->
       calendar.Visibility ev = "private" ->
       strings.Contains (strings.ToLower noUnicode (calendar.Summary ev))
                        (strings.ToLower noUnicode query) = true ->
       processItem parseUTC clockUTC noUnicode (strings.ToLower noUnicode query)
                   member (Some ev) = None).
Proof.
  intros Hclaim.
  assert (processItem parseUTC clockUTC noUnicode (strings.ToLower noUnicode "Busy")
                      bob (Some busyLunch) = None) as Hnone.
  { apply Hclaim; [discriminate|reflexivity|reflexivity]. }
  vm_compute in Hnone. discriminate Hnone.
Qed.

Lemma missing_or_unparseable_times_witness :
  (formatEventTime parseUTC clockUTC undated = ("", "")
   /\ parseEventStart parseUTC undated = time.zero)
  /\ ((formatEventTime parseUTC clockUTC garbled).1 = ""
      /\ parseEventStart parseUTC garbled = time.zero).
Proof.
  split.
  - destruct (missing_or_unparseable_times parseUTC clockUTC noUnicode "" bob undated)
      as (Hnone & _).
    apply Hnone. reflexivity.
  - destruct (missing_or_unparseable_times parseUTC clockUTC noUnicode "" bob garbled)
      as (_ & _ & Hbad & _).
    apply (Hbad {| calendar.Date := ""; calendar.DateTime := "tomorrow" |});
      reflexivity.
Defined.

Lemma memberEmails_are_the_user_addresses_witness :
  alice ∈ memberEmails someMembers
  /\ (Diagnostic ("No user members in group engineering@example.com" +:+ newline)
      = Diagnostic ("No members in group " +:+ asGiven (GroupEmail teamCmd) +:+ newline)
      \/ Diagnostic ("No user members in group engineering@example.com" +:+ newline)
         = Diagnostic ("No user members in group "
                       +:+ asGiven (GroupEmail teamCmd) +:+ newline)).
Proof.
  split.
  - destruct (memberEmails_are_the_user_addresses parseUTC clockUTC noUnicode
                insertionSort theAccount asGiven serviceOk rangeOk serviceOk lookupOk
                onlyAGroup freebusyFails noEvents someMembers) as (Hmem & _).
    apply Hmem.
    exists {| cloudidentity.PreferredMemberKey := Some {| cloudidentity.KeyId := alice |};
              cloudidentity.Type_ := "USER" |}, {| cloudidentity.KeyId := alice |}.
    split; [apply list_elem_of_here|]. split; [reflexivity|].
    split; [reflexivity|]. split; [reflexivity|].
    by exists "alice", "example.com".
  - destruct (memberEmails_are_the_user_addresses parseUTC clockUTC noUnicode
                insertionSort theAccount asGiven serviceOk rangeOk serviceOk lookupOk
                onlyAGroup freebusyFails noEvents [nestedGroup; None])
      as (_ & _ & _ & _ & _ & Hnone).
    apply (Hnone teamCmd "a@b.com" "groups/abc123"); try reflexivity.
    discriminate.
Defined.

(** ** The further properties on the examples *)

Lemma truncate_fits_the_width_witness :
  exists r,
    truncate "Quarterly planning and roadmap review with the whole team" 40 = Some r
    /\ Z.of_nat (String.length r) = 40%Z
    /\ truncate r 40 = Some r.
Proof.
  destruct (truncate_fits_the_width
              "Quarterly planning and roadmap review with the whole team" 40)
    as [Hfits _].
  destruct Hfits as (r & Hr & Hlen & _ & _ & _ & Hagain); [lia|].
  exists r. split; [exact Hr|]. split; [|exact Hagain].
  rewrite Hlen. reflexivity.
Defined.

Lemma renderEvents_rows_witness :
  exists rows,
    renderEvents tabsToSpaces false scenarioBuffer = Some (EventsTable rows)
    /\ length rows = 3.
Proof.
  destruct (renderEvents_rows tabsToSpaces false scenarioBuffer)
    as (out & Hout & _ & _ & Htable).
  destruct Htable as (rows & -> & Hlen & _); [reflexivity|discriminate|].
  exists rows. split; [exact Hout|exact Hlen].
Defined.

Lemma getMemberRole_is_the_highest_witness :
  getMemberRole (Some <$> [ {| Name := "OWNER" |}; {| Name := "MANAGER" |} ])
  = getMemberRole (Some <$> [ {| Name := "MANAGER" |}; {| Name := "OWNER" |} ])
  /\ getMemberRole [ Some {| Name := "MANAGER" |}; None ] = None.
Proof.
  destruct getMemberRole_is_the_highest as (_ & Hperm & Hpanic & _).
  split.
  - apply Hperm. apply perm_swap.
  - apply Hpanic. exists [ {| Name := "MANAGER" |} ], [].
    split; [reflexivity|].
    intros Hin. apply list_elem_of_singleton in Hin. discriminate Hin.
Defined.

Lemma dedupeTeamEvents_drops_only_repeats_witness :
  exists out,
    dedupeTeamEvents [ entry bob "ev1" "09:00" "09:30" "Daily Standup" nine;
                       entry bob "ev2" "14:00" "15:00" "Bob's 1:1" two ] = Some out
    /\ out = [ entry bob "ev1" "09:00" "09:30" "Daily Standup" nine;
               entry bob "ev2" "14:00" "15:00" "Bob's 1:1" two ].
Proof.
  destruct (dedupeTeamEvents_drops_only_repeats
              [ entry bob "ev1" "09:00" "09:30" "Daily Standup" nine;
                entry bob "ev2" "14:00" "15:00" "Bob's 1:1" two ])
    as (out & Hout & _ & Hsame & _).
  exists out. split; [exact Hout|]. apply Hsame.
  apply NoDup_cons. split.
  - intros Hin. apply list_elem_of_singleton in Hin. discriminate Hin.
  - apply NoDup_singleton.
Defined.

Lemma runEvents_warns_of_every_failure_witness :
  length (warnings reportWithoutAlice) = 1
  /\ warningOf alice "googleapi: Error 403: Forbidden" ∈ warnings reportWithoutAlice.
Proof.
  destruct (runEvents_warns_of_every_failure parseUTC clockUTC noUnicode insertionSort
              insertionSort_perm teamCmd
              [ (alice, Err "googleapi: Error 403: Forbidden");
                (bob, Ok [Some standup; Some oneOnOne]) ]
              reportWithoutAlice scenario_run_without_alice)
    as (_ & Hlen & Hin & _).
  split; [exact Hlen|]. apply Hin. apply list_elem_of_here.
Defined.

Lemma runEvents_shows_every_kept_event_witness :
  NoDup (ID <$> shown scenarioReport)
  /\ "ev2" ∈ ID <$> shown scenarioReport.
Proof.
  destruct (runEvents_shows_every_kept_event parseUTC clockUTC noUnicode insertionSort
              insertionSort_perm teamCmd scenario scenarioReport scenario_run)
    as (Hids & _ & Hnodup & _).
  split; [apply Hnodup; reflexivity|].
  apply Hids. exists bob, [Some standup; Some oneOnOne], oneOnOne.
  split; [apply list_elem_of_further, list_elem_of_here|].
  split; [apply list_elem_of_further, list_elem_of_here|].
  split; [reflexivity|]. split; reflexivity.
Defined.

Lemma runEvents_report_up_to_schedule_witness :
  warnings scenarioReport ≡ₚ warnings scenarioReport
  /\ length (shown scenarioReport) = length (shown scenarioReport).
Proof.
  destruct (runEvents_report_up_to_schedule parseUTC clockUTC noUnicode insertionSort
              insertionSort_perm insertionSort_sorted teamCmd scenario
              scenarioReport scenarioReport scenario_run scenario_run)
    as (Hw & Hlen & _).
  split; [exact Hw|exact Hlen].
Defined.

Lemma fanout_never_blocks_witness :
  (finished tenFetching
   \/ exists s', step parseUTC clockUTC noUnicode "" tenFetching s')
  /\ exists s', rtc (step parseUTC clockUTC noUnicode "") tenFetching s'
                /\ finished s'.
Proof.
  destruct (fanout_never_blocks parseUTC clockUTC noUnicode "" fifty tenFetching)
    as (Hprogress & Hend & _).
  - apply (first_workers_fetch parseUTC clockUTC noUnicode ""
             (replicate 10 (alice, Ok [Some standup]))
             (replicate 40 (alice, Ok [Some standup]))).
    cbn. unfold semCap. lia.
  - split; [exact Hprogress|exact Hend].
Defined.

Lemma narrower_query_shows_fewer_events_witness :
  contribution parseUTC clockUTC noUnicode "standup" bob
    [Some standup; Some oneOnOne]
  `sublist_of`
  contribution parseUTC clockUTC noUnicode "stand" bob
    [Some standup; Some oneOnOne].
Proof.
  refine (proj1 (narrower_query_shows_fewer_events parseUTC clockUTC noUnicode
                   "standup" "stand" bob [Some standup; Some oneOnOne] _)).
  reflexivity.
Defined.

Lemma query_ignores_ascii_case_witness :
  exists te,
    processItem parseUTC clockUTC noUnicode
      (strings.ToLower noUnicode (Query standupQuery)) bob (Some standup) = Some te
    /\ Summary te = "Daily " +:+ "Standup" +:+ ""
    /\ ID te = calendar.Id standup.
Proof.
  apply (query_ignores_ascii_case parseUTC clockUTC noUnicode standupQuery bob
           standup "Daily " "Standup" ""); reflexivity.
Defined.

Lemma private_titles_never_reach_the_output_witness :
  processItem parseUTC clockUTC noUnicode "" bob
    (Some (withSummary "Interview with a candidate" busyLunch))
  = processItem parseUTC clockUTC noUnicode "" bob (Some busyLunch).
Proof.
  destruct (private_titles_never_reach_the_output parseUTC clockUTC noUnicode
              insertionSort teamCmd) as (Hitem & _).
  refine (proj2 (Hitem "" bob "Interview with a candidate" busyLunch _)).
  left. reflexivity.
Defined.

Lemma no_events_found_message_witness :
  exists rows,
    renderEvents tabsToSpaces false (shown scenarioReport) = Some (EventsTable rows)
    /\ length rows = 2.
Proof.
  destruct (no_events_found_message parseUTC clockUTC noUnicode insertionSort
              insertionSort_perm tabsToSpaces teamCmd scenario scenarioReport
              scenario_run) as (_ & Htable & _).
  destruct Htable as (rows & Hrows & Hlen & _).
  - vm_compute. discriminate.
  - exists rows. split; [exact Hrows|exact Hlen].
Defined.

Example scenario_Run :
  Run parseUTC clockUTC noUnicode insertionSort theAccount asGiven serviceOk rangeOk
    serviceOk lookupOk listsSomeMembers freebusyFails scenarioEvents teamCmd
    (EventsReport scenarioReport).
Proof.
  unfold Run. cbn. exists scenarioReport. split; [reflexivity|].
  exact scenario_run.
Qed.

Lemma Run_shows_only_group_members_witness :
  exists first others,
    "bob@example.com, alice@example.com" = strings.Join (first :: others) ", "
    /\ forall m, m ∈ first :: others -> m ∈ [alice; bob].
Proof.
  destruct (Run_shows_only_group_members parseUTC clockUTC noUnicode insertionSort
              insertionSort_perm theAccount asGiven serviceOk rangeOk serviceOk
              lookupOk listsSomeMembers freebusyFails scenarioEvents teamCmd
              scenarioReport scenario_Run)
    as (_ & account & name & memberships & _ & _ & Hlist & Hwho & _).
  injection Hlist as <-.
  apply (Hwho (entry "bob@example.com, alice@example.com" "ev1" "09:00" "09:30"
                 "Daily Standup" nine)).
  apply list_elem_of_here.
Defined.


Lemma runFreeBusy_rows_witness :
  exists results,
    runFreeBusy parseUTC clockUTC freebusyOk [alice; bob] = FreeBusyReport results
    /\ Email <$> results
       = filter (fun m => is_Some (aliceIsBusy !! m)) [alice; bob].
Proof.
  destruct (runFreeBusy_rows parseUTC clockUTC freebusyOk [alice; bob] aliceIsBusy)
    as (results & Hrun & Hrows & _).
  - reflexivity.
  - exists results. split; [exact Hrun|exact Hrows].
Defined.

Example scenario_Run_freebusy :
  Run parseUTC clockUTC noUnicode insertionSort theAccount asGiven serviceOk rangeOk
    serviceOk lookupOk listsSomeMembers freebusyOk scenarioEvents
    {| GroupEmail := "engineering@example.com"; FreeBusy := true;
       Query := ""; Max := 100; NoDedup := false |}
    (FreeBusyReport [ {| Email := alice; BusyBlocks := ["09:00-09:30"];
                         ErrorReasons := [] |} ]).
Proof. vm_compute. reflexivity. Qed.

Lemma Run_freebusy_rows_are_members_witness :
  Email <$> [ {| Email := alice; BusyBlocks := ["09:00-09:30"]; ErrorReasons := [] |} ]
  `sublist_of` [alice; bob].
Proof.
  destruct (Run_freebusy_rows_are_members parseUTC clockUTC noUnicode insertionSort theAccount
              asGiven serviceOk rangeOk serviceOk lookupOk listsSomeMembers freebusyOk
              scenarioEvents
              {| GroupEmail := "engineering@example.com"; FreeBusy := true;
                 Query := ""; Max := 100; NoDedup := false |}
              [ {| Email := alice; BusyBlocks := ["09:00-09:30"]; ErrorReasons := [] |} ]
              scenario_Run_freebusy)
    as (_ & account & name & memberships & calendars & _ & _ & Hlist & _ & _ & Hsub & _).
  injection Hlist as <-. exact Hsub.
Defined.
